(** * muncher: tabular-data manipulation primitives (src/muncher/manipulation.py)

    A shallow embedding of [columnManipulation], [dataCleaning],
    [dataSelection], [dataGroupBy], [dataSampling] and [dataPivoting], the
    properties of them that the specification states, and further properties
    that the code shows.

    Modelling choices, all of them visible in the definitions below:
    - a Python value of a cell is a [cell]: [None], a [str], a number, a
      [list] or a [tuple] of cells.  Numbers are exact rationals ([Qc]): a
      Python [int] is such a number, a [float] is read as the rational it
      denotes and the rounding of float arithmetic is not modelled.  Python's
      [==] on these values is Leibniz equality;
    - a Python [dict] is an insertion-ordered association list ([dict]);
    - an exception is a [Raise e] result; a function that mutates objects it
      was given runs in a state monad over a store of those objects, and the
      store survives an exception;
    - the wall clock read by [dataSampling] and the iteration order of a
      Python [set] are parameters. *)

From stdpp Require Import base option list numbers strings sorting.
From Stdlib Require Import QArith Qcanon.

Local Open Scope Z_scope.

#[local] Set Warnings "-register-all".

(** ** Python values *)

Inductive cell : Type :=
  | VNone
  | VStr (s : string)
  | VNum (q : Qc)
  | VList (l : list cell)
  | VTuple (l : list cell).

Fixpoint cell_eq_dec (a b : cell) : Decision (a = b).
Proof.
  refine
    match a, b with
    | VNone, VNone => left _
    | VStr s, VStr t => cast_if (decide (s = t))
    | VNum p, VNum q => cast_if (decide (p = q))
    | VList l, VList m => cast_if (@list_eq_dec _ cell_eq_dec l m)
    | VTuple l, VTuple m => cast_if (@list_eq_dec _ cell_eq_dec l m)
    | _, _ => right _
    end; abstract congruence.
Defined.
#[global] Instance cell_eq_decision : EqDecision cell := cell_eq_dec.

(** Exceptions of the Python runtime that the modelled code can raise. *)
Inductive exn : Type :=
  | IndexError | KeyError | TypeError | ValueError | ZeroDivisionError.

#[global] Instance exn_eq_dec : EqDecision exn.
Proof. solve_decision. Defined.

Inductive result (A : Type) : Type :=
  | Ok (a : A)
  | Raise (e : exn).
Arguments Ok {A} a.
Arguments Raise {A} e.

#[global] Instance result_eq_dec {A} `{EqDecision A} : EqDecision (result A).
Proof. solve_decision. Defined.

#[global] Instance result_ret : MRet result := λ A a, Ok a.
#[global] Instance result_bind : MBind result := λ A B f m,
  match m with
  | Ok a => f a
  | Raise e => Raise e
  end.

(** ** Insertion-ordered dictionaries *)

Module Dict.
Section dict.
Context {K V : Type} `{EqDecision K}.

(** [d.get(k)] *)
Fixpoint get (d : list (K * V)) (k : K) : option V :=
  match d with
  | [] => None
  | (k', v) :: d' => if decide (k = k') then Some v else get d' k
  end.

(** [k in d] *)
Definition mem (d : list (K * V)) (k : K) : bool :=
  match get d k with Some _ => true | None => false end.

(** [d[k]], which raises [KeyError] for a key that is not there *)
Definition getitem (d : list (K * V)) (k : K) : result V :=
  match get d k with Some v => Ok v | None => Raise KeyError end.

(** [d[k] = v]: an existing key keeps its position, a new key goes last *)
Fixpoint set (d : list (K * V)) (k : K) (v : V) : list (K * V) :=
  match d with
  | [] => [(k, v)]
  | (k', v') :: d' =>
      if decide (k = k') then (k, v) :: d' else (k', v') :: set d' k v
  end.

(** [list(d.keys())] and [d.items()] *)
Definition keys (d : list (K * V)) : list K := d.*1.
Definition items (d : list (K * V)) : list (K * V) := d.

(** A dictionary holds each key once. *)
Definition wf (d : list (K * V)) : Prop := NoDup (keys d).
End dict.
End Dict.

(** A row maps column names to cells; a dataset is a sequence of rows. *)
Abbreviation row := (list (string * cell)).

(** ** Python operators on cells *)

(** [value is None or value == ''], the same test as
    [value in (None, '')] *)
Definition is_missing (value : cell) : bool :=
  bool_decide (value = VNone) || bool_decide (value = VStr "").

(** [isinstance(value, (list, tuple))] *)
Definition is_list_or_tuple (value : cell) : bool :=
  match value with
  | VList _ | VTuple _ => true
  | _ => false
  end.

(** Whether [hash(value)] succeeds: a list is unhashable, and so is a tuple
    that holds one. *)
Fixpoint hashable (value : cell) : bool :=
  match value with
  | VNone | VStr _ | VNum _ => true
  | VList _ => false
  | VTuple l => forallb hashable l
  end.

(** [sum(values)]: starts from [0] and adds with [+]; [0 + x] and
    [number + x] are defined for a number [x] only. *)
Fixpoint py_sum_from (acc : Qc) (values : list cell) : result Qc :=
  match values with
  | [] => Ok acc
  | VNum q :: values' => py_sum_from (acc + q)%Qc values'
  | _ :: _ => Raise TypeError
  end.

Definition py_sum (values : list cell) : result Qc := py_sum_from 0%Qc values.

(** [len(values)] as a number *)
Definition py_len {A} (values : list A) : Qc := Qc_of_Z (Z.of_nat (length values)).

(** [x / n], true division *)
Definition py_truediv (x n : Qc) : result Qc :=
  if decide (n = 0%Qc) then Raise ZeroDivisionError else Ok (x / n)%Qc.

(** [a < b]: numbers by value, strings by code point, sequences of one kind
    lexicographically (the first pair that differs under [==] decides, a
    proper prefix is smaller); anything else is a [TypeError]. *)
Fixpoint py_lt (a b : cell) : result bool :=
  let fix seq_lt (l m : list cell) : result bool :=
    match l, m with
    | [], [] => Ok false
    | [], _ :: _ => Ok true
    | _ :: _, [] => Ok false
    | x :: l', y :: m' => if decide (x = y) then seq_lt l' m' else py_lt x y
    end in
  match a, b with
  | VNum p, VNum q => Ok (bool_decide (p < q)%Qc)
  | VStr s, VStr t => Ok (String.ltb s t)
  | VList l, VList m => seq_lt l m
  | VTuple l, VTuple m => seq_lt l m
  | _, _ => Raise TypeError
  end.

(** [a > b] *)
Definition py_gt (a b : cell) : result bool := py_lt b a.

(** [max(values)]: the first item is the candidate, a later item replaces it
    when it is strictly greater; an empty argument is a [ValueError]. *)
Fixpoint py_max_from (best : cell) (values : list cell) : result cell :=
  match values with
  | [] => Ok best
  | item :: values' =>
      greater ← py_gt item best;
      py_max_from (if greater : bool then item else best) values'
  end.

Definition py_max (values : list cell) : result cell :=
  match values with
  | [] => Raise ValueError
  | first :: values' => py_max_from first values'
  end.

(** [sorted(values)], as an insertion sort on [<].  Where [<] is a total
    order on the items (numbers, or strings) every stable sort returns this
    list; on items that [<] cannot compare both raise [TypeError]. *)
Fixpoint py_insert (x : cell) (sorted : list cell) : result (list cell) :=
  match sorted with
  | [] => Ok [x]
  | y :: sorted' =>
      smaller ← py_lt x y;
      if smaller : bool then Ok (x :: y :: sorted')
      else rest ← py_insert x sorted'; Ok (y :: rest)
  end.

Fixpoint py_sorted (values : list cell) : result (list cell) :=
  match values with
  | [] => Ok []
  | x :: values' => rest ← py_sorted values'; py_insert x rest
  end.

(** A [for] loop whose body can raise: the accumulator is threaded through
    the items in order and the first exception ends the loop. *)
Fixpoint for_each {A B} (body : B → A → result B) (acc : B) (items : list A)
    : result B :=
  match items with
  | [] => Ok acc
  | item :: items' => acc' ← body acc item; for_each body acc' items'
  end.

(** A number written as a Python [int] literal. *)
Definition int (z : Z) : cell := VNum (Qc_of_Z z).

(** ** [dataCleaning] (lines 17-52) *)

Section cleaning.
(** The order in which Python iterates over [set(values)]; it depends on
    the hashes of the items and is a parameter here. *)
Variable set_order : list cell → list cell.

(** [[r[column] for r in dataset if column in r
      and r[column] not in (None, '')]] *)
Definition present_values (dataset : list row) (column : string) : list cell :=
  filter (λ value, ¬ is_missing value)
         (omap (λ r : row, Dict.get r column) dataset).

(** [values.count(x)] *)
Definition py_count (values : list cell) (x : cell) : nat :=
  length (filter (λ value, value = x) values).

(** [max(items, key=key)] for keys that are counts: a later item replaces
    the candidate when its key is strictly greater. *)
Fixpoint max_by_from (key : cell → nat) (best : cell) (items : list cell) : cell :=
  match items with
  | [] => best
  | item :: items' =>
      max_by_from key (if decide (key best < key item)%nat then item else best) items'
  end.

(** [max(set(values), key=values.count)] *)
Definition py_mode (values : list cell) : result cell :=
  if forallb hashable values then
    match set_order values with
    | [] => Raise ValueError
    | first :: items => Ok (max_by_from (py_count values) first items)
    end
  else Raise TypeError.

(** Lines 36-46: what a missing cell of [column] becomes in [cleaned_row]. *)
Definition impute (dataset : list row) (missing_value_strategy : string)
    (cleaned_row : row) (column : string) : result row :=
  if decide (missing_value_strategy = "mean") then
    let values := present_values dataset column in
    if decide (values = []) then Ok (Dict.set cleaned_row column VNone)
    else
      total ← py_sum values;
      mean ← py_truediv total (py_len values);
      Ok (Dict.set cleaned_row column (VNum mean))
  else if decide (missing_value_strategy = "median") then
    values ← py_sorted (present_values dataset column);
    if decide (values = []) then Ok (Dict.set cleaned_row column VNone)
    else
      match values !! (length values / 2)%nat with
      | Some median => Ok (Dict.set cleaned_row column median)
      | None => Raise IndexError
      end
  else if decide (missing_value_strategy = "mode") then
    let values := present_values dataset column in
    if decide (values = []) then Ok (Dict.set cleaned_row column VNone)
    else mode ← py_mode values; Ok (Dict.set cleaned_row column mode)
  else if decide (missing_value_strategy = "remove") then
    Ok cleaned_row
  else Ok cleaned_row.

(** Lines 32-48: the body of the loop over the columns. *)
Definition clean_cell (dataset : list row) (missing_value_strategy : string)
    (r : row) (cleaned_row : row) (column : string) : result row :=
  match Dict.get r column with
  | Some value =>
      if is_missing value
      then impute dataset missing_value_strategy cleaned_row column
      else Ok (Dict.set cleaned_row column value)
  | None => Ok cleaned_row
  end.

(** Lines 29-50: the loop over the rows; each iteration appends one
    [cleaned_row] to [cleaned_data]. *)
Fixpoint clean_rows (dataset : list row) (missing_value_strategy : string)
    (columns : list string) (rows : list row) (cleaned_data : list row)
    : result (list row) :=
  match rows with
  | [] => Ok cleaned_data
  | r :: rows' =>
      cleaned_row ← for_each (clean_cell dataset missing_value_strategy r) [] columns;
      clean_rows dataset missing_value_strategy columns rows'
                 (cleaned_data ++ [cleaned_row])
  end.

Definition dataCleaning (dataset : list row) (missing_value_strategy : string)
    : result (list row) :=
  match dataset with
  | [] => Raise IndexError
  | first :: _ =>
      let columns := Dict.keys first in
      clean_rows dataset missing_value_strategy columns dataset []
  end.
End cleaning.

(** ** Mutable objects

    A computation over a store [S] of mutable objects: it returns the store
    it leaves behind together with its result or the exception it raised. *)

Definition state (S A : Type) : Type := S → S * result A.

#[global] Instance state_ret {S} : MRet (state S) := λ A a s, (s, Ok a).
#[global] Instance state_bind {S} : MBind (state S) := λ A B f m s,
  match m s with
  | (s', Ok a) => f a s'
  | (s', Raise e) => (s', Raise e)
  end.

(** A pure step, which leaves the store alone. *)
Definition lift {S A} (r : result A) : state S A := λ s, (s, r).

(** A [for] loop over [items] that threads an accumulator and the store. *)
Fixpoint for_each_st {S A B} (body : B → A → state S B) (acc : B) (items : list A)
    : state S B :=
  match items with
  | [] => mret acc
  | item :: items' => acc' ← body acc item; for_each_st body acc' items'
  end.

(** ** [dataGroupBy] (lines 76-120)

    The rows are [dict] objects that the function assigns into, so they live
    in a heap and the dataset is the sequence of their addresses.  An address
    outside the heap reads as the empty row; Python has no such reference. *)

Abbreviation heap := (list row).

Definition load (r : nat) : state heap row := λ h, (h, Ok (h !!! r)).
Definition store (r : nat) (x : row) : state heap () := λ h, (<[r := x]> h, Ok ()).

(** The items that [for value in row[column]] visits. *)
Definition items_of (value : cell) : list cell :=
  match value with
  | VList l | VTuple l => l
  | _ => []
  end.

(** Lines 92-103 for one [(column, agg_function)] item, on the row being
    visited and on [grouped_data[group_key]].  Nothing here can raise. *)
Definition collect_column (visited : row * list (string * list cell))
    (item : string * string) : row * list (string * list cell) :=
  let '(r, group) := visited in
  let '(column, agg_function) := item in
  match Dict.get r column with
  | Some value =>
      let group :=
        if Dict.mem group column then group else Dict.set group column [] in
      let r :=
        if is_list_or_tuple value then r else Dict.set r column (VList [value]) in
      let values :=
        filter (λ value, value ≠ VNone)
               (items_of (default VNone (Dict.get r column))) in
      let group :=
        if decide (values = []) then group
        else Dict.set group column (default [] (Dict.get group column) ++ values) in
      (r, group)
  | None => (r, group)
  end.

(** Lines 88-103: the body of the loop over the rows.  The row is written
    back once the loop over the columns is done, which is what the
    assignments of line 98 amount to since that loop cannot raise. *)
Definition collect_row (groupby_column : string) (aggregation_functions : list (string * string))
    (grouped_data : list (cell * list (string * list cell))) (r : nat)
    : state heap (list (cell * list (string * list cell))) :=
  row ← load r;
  group_key ← lift (Dict.getitem row groupby_column);
  if hashable group_key then
    let grouped_data :=
      if Dict.mem grouped_data group_key then grouped_data
      else Dict.set grouped_data group_key [] in
    let '(row, group) :=
      foldl collect_column (row, default [] (Dict.get grouped_data group_key))
            (Dict.items aggregation_functions) in
    _ ← store r row;
    mret (Dict.set grouped_data group_key group)
  else lift (Raise TypeError).

(** Lines 109-116 for one [(column, agg_function)] item. *)
Definition aggregate_column (group_data : list (string * list cell))
    (aggregated_row : row) (item : string * string) : result row :=
  let '(column, agg_function) := item in
  match Dict.get group_data column with
  | Some values =>
      if decide (agg_function = "sum") then
        total ← py_sum values;
        Ok (Dict.set aggregated_row column (VNum total))
      else if decide (agg_function = "mean") then
        if decide (0 < length values)%nat then
          total ← py_sum values;
          mean ← py_truediv total (py_len values);
          Ok (Dict.set aggregated_row column (VNum mean))
        else Ok (Dict.set aggregated_row column VNone)
      else if decide (agg_function = "max") then
        greatest ← py_max values;
        Ok (Dict.set aggregated_row column greatest)
      else Ok aggregated_row
  | None => Ok aggregated_row
  end.

(** Lines 107-117: the output row of one group. *)
Definition aggregate_row (groupby_column : string)
    (aggregation_functions : list (string * string))
    (group_key : cell) (group_data : list (string * list cell)) : result row :=
  for_each (aggregate_column group_data) [(groupby_column, group_key)]
           (Dict.items aggregation_functions).

(** Lines 106-118: the body of the loop over the groups. *)
Definition aggregate_group (groupby_column : string)
    (aggregation_functions : list (string * string))
    (aggregated_data : list row) (item : cell * list (string * list cell))
    : result (list row) :=
  let '(group_key, group_data) := item in
  aggregated_row ← aggregate_row groupby_column aggregation_functions group_key group_data;
  Ok (aggregated_data ++ [aggregated_row]).

Definition dataGroupBy (dataset : list nat) (groupby_column : string)
    (aggregation_functions : list (string * string)) : state heap (list row) :=
  grouped_data ← for_each_st (collect_row groupby_column aggregation_functions) [] dataset;
  lift (for_each (aggregate_group groupby_column aggregation_functions) []
                 (Dict.items grouped_data)).

(** ** [dataSampling] (lines 125-146)

    The dataset is a [list] object and the function copies it and pops from
    the copy, so the lists live in a store and are named by their addresses.
    The items of the lists are the rows, which the function never looks
    into; their type is left open.  An address outside the store reads as
    the empty list. *)

Section sampling.
Context {A : Type}.

(** [l.copy()]: a new list object with the same items *)
Definition list_copy (l : nat) : state (list (list A)) nat :=
  λ s, (s ++ [s !!! l], Ok (length s)).

(** [len(l)] *)
Definition list_len (l : nat) : state (list (list A)) Z :=
  λ s, (s, Ok (Z.of_nat (length (s !!! l)))).

(** [l.pop(index)] for an index that is not negative *)
Definition list_pop (l : nat) (index : Z) : state (list (list A)) A :=
  λ s, match (s !!! l) !! Z.to_nat index with
       | Some item => (<[l := delete (Z.to_nat index) (s !!! l)]> s, Ok item)
       | None => (s, Raise IndexError)
       end.

(** [a % b] *)
Definition py_mod (a b : Z) : result Z :=
  if decide (b = 0) then Raise ZeroDivisionError else Ok (a `mod` b).

(** [int(x)]: rounds towards zero *)
Definition py_int (x : Qc) : Z := Qnum x `quot` Z.pos (Qden x).

(** Lines 141-144: [n] more iterations of the loop. *)
Fixpoint sample_loop (n : nat) (seed : Z) (dataset_copy : nat)
    (sampled_data : list A) : state (list (list A)) (list A) :=
  match n with
  | O => mret sampled_data
  | S n' =>
      size ← list_len dataset_copy;
      index ← lift (py_mod seed size);
      item ← list_pop dataset_copy index;
      sample_loop n' (seed + 1) dataset_copy (sampled_data ++ [item])
  end.

(** [now] is the value of [int(time.time())]. *)
Definition dataSampling (now : Z) (dataset : nat) (fraction : Qc)
    : state (list (list A)) (list A) :=
  let seed := now in
  dataset_copy ← list_copy dataset;
  total_size ← list_len dataset_copy;
  let sample_size := py_int (Qc_of_Z total_size * fraction)%Qc in
  sample_loop (Z.to_nat sample_size) seed dataset_copy [].
End sampling.

(** ** [dataPivoting] (lines 148-163) *)

(** Lines 159-162: the body of the loop.  Line 161 stores a fresh empty
    [dict] under a new key and line 162 replaces it at once, or raises and
    [pivoted_data] is lost; [None] stands for that empty [dict]. *)
Definition pivot_row (pivot_column value_column : string)
    (pivoted_data : list (cell * cell)) (r : row) : result (list (cell * cell)) :=
  pivot_value ← Dict.getitem r pivot_column;
  if hashable pivot_value then
    let pivoted_data :=
      if Dict.mem pivoted_data pivot_value then pivoted_data
      else Dict.set pivoted_data pivot_value VNone in
    value ← Dict.getitem r value_column;
    Ok (Dict.set pivoted_data pivot_value value)
  else Raise TypeError.

Definition dataPivoting (dataset : list row) (pivot_column value_column : string)
    : result (list row) :=
  pivoted_data ← for_each (pivot_row pivot_column value_column) [] dataset;
  Ok ((λ '(key, value), [("pivot_column", key); ("value_column", value)])
        <$> Dict.items pivoted_data).

(** ** [columnManipulation] (lines 3-14)

    The function assigns into the rows it is given, so they live in the heap
    as for [dataGroupBy].  The manipulation function is any Python callable;
    it is modelled as a function on cells that may raise, and effects of its
    own on the rows are not modelled. *)

(** Line 13: the body of the loop, on the row at index [i], whose address
    is [r]. *)
Definition manipulate_row (column : string)
    (manipulation_function : cell → result cell) (_ : ()) (r : nat) : state heap () :=
  row ← load r;
  value ← lift (Dict.getitem row column);
  value ← lift (manipulation_function value);
  store r (Dict.set row column value).

Definition columnManipulation (dataset : list nat) (column : string)
    (manipulation_function : cell → result cell) : state heap (list nat) :=
  _ ← for_each_st (manipulate_row column manipulation_function) () dataset;
  mret dataset.

(** ** [dataSelection] (lines 56-72)

    [columns] is [None] or a list of column names, [rows] is [None] or a
    list of integers. *)

(** [{col: row[col] for col in columns if col in row}] *)
Definition select_columns (columns : list string) (r : row) : row :=
  foldl (λ (selected : row) col,
           match Dict.get r col with
           | Some value => Dict.set selected col value
           | None => selected
           end) [] columns.

(** [d.update(other)] *)
Definition dict_update (d other : row) : row :=
  foldl (λ (d : row) '(key, value), Dict.set d key value) d (Dict.items other).

(** Lines 67-71: the body of the loop, on the row [r] at index [i].  A
    [columns] that is [None] or empty is falsy. *)
Definition select_row (columns : option (list string)) (rows : option (list Z))
    (selected_data : list row) (i : nat) (r : row) : list row :=
  let selected_row : row := [] in
  let selected_row :=
    match columns with
    | Some (col :: cols) => dict_update selected_row (select_columns (col :: cols) r)
    | Some [] | None => selected_row
    end in
  match rows with
  | None => selected_data ++ [selected_row]
  | Some indices =>
      if decide (Z.of_nat i ∈ indices) then selected_data ++ [selected_row]
      else selected_data
  end.

(** Lines 66-71: the loop from index [i] on. *)
Fixpoint select_loop (columns : option (list string)) (rows : option (list Z))
    (i : nat) (dataset : list row) (selected_data : list row) : list row :=
  match dataset with
  | [] => selected_data
  | r :: dataset' =>
      select_loop columns rows (S i) dataset' (select_row columns rows selected_data i r)
  end.

Definition dataSelection (dataset : list row) (columns : option (list string))
    (rows : option (list Z)) : list row :=
  select_loop columns rows 0 dataset [].

(** * Vocabulary of the properties *)

Definition is_Ok {A} (r : result A) : Prop := ∃ a, r = Ok a.

(** ** [dataCleaning] *)

(** The columns of the first row, which the function reads once. *)
Definition schema (dataset : list row) : list string :=
  match dataset with
  | [] => []
  | first :: _ => Dict.keys first
  end.

(** What lines 36-46 assign to a missing cell of [column]: [Some value]
    when the strategy assigns [value], [None] when it assigns nothing. *)
Definition imputed (set_order : list cell → list cell) (dataset : list row)
    (strategy column : string) : result (option cell) :=
  if decide (strategy = "mean") then
    let values := present_values dataset column in
    if decide (values = []) then Ok (Some VNone)
    else total ← py_sum values;
         mean ← py_truediv total (py_len values);
         Ok (Some (VNum mean))
  else if decide (strategy = "median") then
    values ← py_sorted (present_values dataset column);
    if decide (values = []) then Ok (Some VNone)
    else
      match values !! (length values / 2)%nat with
      | Some median => Ok (Some median)
      | None => Raise IndexError
      end
  else if decide (strategy = "mode") then
    let values := present_values dataset column in
    if decide (values = []) then Ok (Some VNone)
    else mode ← py_mode set_order values; Ok (Some mode)
  else Ok None.

(** The cell that the cleaned row holds for [column], given the cell [value]
    of the input row: a missing cell is imputed, any other is copied. *)
Definition cleaned_cell (set_order : list cell → list cell) (dataset : list row)
    (strategy column : string) (value : cell) : result (option cell) :=
  if is_missing value then imputed set_order dataset strategy column else Ok (Some value).

Definition is_number (value : cell) : Prop := ∃ q, value = VNum q.

Definition sum_numbers (numbers : list Qc) : Qc := foldr Qcplus 0%Qc numbers.

(** The arithmetic mean of a non-empty list of numbers. *)
Definition arithmetic_mean (numbers : list Qc) : Qc :=
  (sum_numbers numbers / py_len numbers)%Qc.

(** [a] is not greater than [b] in Python's order: [b < a] is false. *)
Definition not_greater (a b : cell) : Prop := py_lt b a = Ok false.


(** [median_of values median]: [median] is the null marker when [values]
    is empty and otherwise the item at index [length values / 2] of
    [values] put in ascending order. *)
Inductive median_of : list cell → cell → Prop :=
  | median_of_empty : median_of [] VNone
  | median_of_sorted values sorted median :
      values ≠ [] → sorted ≡ₚ values → Sorted not_greater sorted →
      sorted !! (length values / 2)%nat = Some median →
      median_of values median.

(** ** Keys and groups *)

(** The distinct items of a list in the order of their first occurrence. *)
Fixpoint first_seen {A} `{EqDecision A} (l : list A) : list A :=
  match l with
  | [] => []
  | x :: l' => x :: filter (λ y, y ≠ x) (first_seen l')
  end.

(** The cells of [column] down the rows that have it. *)
Definition column_of (column : string) (rows : list row) : list cell :=
  omap (λ r : row, Dict.get r column) rows.

(** The last row whose [column] holds [key]. *)
Definition last_with (column : string) (key : cell) (rows : list row) : option row :=
  last (filter (λ r : row, Dict.get r column = Some key) rows).

(** ** [dataSampling] *)

(** [int(total_size * fraction)] for a dataset that holds [items] *)
Definition sample_size {A} (items : list A) (fraction : Qc) : Z :=
  py_int (Qc_of_Z (Z.of_nat (length items)) * fraction)%Qc.

(** ** [dataGroupBy] *)

(** What line 98 leaves in a cell: a list or tuple stays, anything else is
    put in a list of one item. *)
Definition wrap (value : cell) : cell :=
  if is_list_or_tuple value then value else VList [value].

(** The row after line 98 has run for each of [columns]. *)
Definition wrap_columns (columns : list string) (r : row) : row :=
  foldl (λ (r : row) column,
           match Dict.get r column with
           | Some value => Dict.set r column (wrap value)
           | None => r
           end) r columns.

(** [r'] is [r] with some of its cells wrapped. *)
Definition partly_wrapped (r r' : row) : Prop :=
  ∀ column, Dict.get r' column = Dict.get r column ∨
            Dict.get r' column = wrap <$> Dict.get r column.

(** Lines 93-103 on [grouped_data[group_key]], for a [column] that holds
    [value] on the row. *)
Definition accumulate (group : list (string * list cell)) (column : string)
    (value : cell) : list (string * list cell) :=
  let group := if Dict.mem group column then group else Dict.set group column [] in
  let values := filter (λ item, item ≠ VNone) (items_of (wrap value)) in
  if decide (values = []) then group
  else Dict.set group column (default [] (Dict.get group column) ++ values).

(** What the loop over [columns] makes of [grouped_data[group_key]] on a row
    [r]. *)
Definition collect_values (r : row) (group : list (string * list cell))
    (columns : list string) : list (string * list cell) :=
  foldl (λ group column,
           match Dict.get r column with
           | Some value => accumulate group column value
           | None => group
           end) group columns.

(** Lines 88-103 on the value [r] of a row: what the visit makes of
    [grouped_data].  [columns] are the keys of [aggregation_functions]. *)
Definition collect_group (groupby_column : string) (columns : list string)
    (grouped_data : list (cell * list (string * list cell))) (r : row)
    : result (list (cell * list (string * list cell))) :=
  group_key ← Dict.getitem r groupby_column;
  if hashable group_key then
    let grouped_data :=
      if Dict.mem grouped_data group_key then grouped_data
      else Dict.set grouped_data group_key [] in
    Ok (Dict.set grouped_data group_key
          (collect_values r (default [] (Dict.get grouped_data group_key)) columns))
  else Raise TypeError.

(** The heap once the rows at [visited] have been visited, [before] being
    the heap before the call. *)
Definition visited_heap (columns : list string) (before : heap) (visited : list nat)
    (h : heap) : Prop :=
  length h = length before ∧
  ∀ l, h !! l =
    (if decide (l ∈ visited) then wrap_columns columns else id) <$> before !! l.

(** The rows at the addresses of a dataset. *)
Definition rows_at (h : heap) (dataset : list nat) : list row :=
  (λ l, h !!! l) <$> dataset.

(** What a row adds to the accumulator of [column]: the items of its wrapped
    cell that are not [None]. *)
Definition contribution (column : string) (r : row) : list cell :=
  match Dict.get r column with
  | Some value => filter (λ item, item ≠ VNone) (items_of (wrap value))
  | None => []
  end.

(** The rows of the group of [key] that have [column]. *)
Definition contributors (groupby_column : string) (key : cell) (column : string)
    (rows : list row) : list row :=
  filter (λ r : row, Dict.get r groupby_column = Some key ∧ is_Some (Dict.get r column)) rows.

(** The accumulator of [column] in the group of [key]: absent when no row of
    the group has the column. *)
Definition accumulated (groupby_column : string) (key : cell) (column : string)
    (rows : list row) : option (list cell) :=
  match contributors groupby_column key column rows with
  | [] => None
  | rs => Some (concat (contribution column <$> rs))
  end.

(** What lines 110-116 assign to the output row for a column whose
    accumulator holds [values]: [Some value], or [None] when the kind of
    aggregation is not one of the three. *)
Definition aggregated (agg_function : string) (values : list cell)
    : result (option cell) :=
  if decide (agg_function = "sum") then
    total ← py_sum values; Ok (Some (VNum total))
  else if decide (agg_function = "mean") then
    if decide (0 < length values)%nat then
      total ← py_sum values;
      mean ← py_truediv total (py_len values);
      Ok (Some (VNum mean))
    else Ok (Some VNone)
  else if decide (agg_function = "max") then
    greatest ← py_max values; Ok (Some greatest)
  else Ok None.

(** Every accumulator of every group holds numbers only. *)
Definition numeric_groups (grouped_data : list (cell * list (string * list cell))) : Prop :=
  ∀ key group column values,
    Dict.get grouped_data key = Some group → Dict.get group column = Some values →
    Forall is_number values.

(** A cell that [sum] and [mean] can take: a number, or the null marker,
    which the collection phase drops. *)
Definition summable (value : cell) : Prop := value = VNone ∨ is_number value.

(** ** [columnManipulation] *)

(** What line 13 makes of a row: [None] when it raises. *)
Definition manipulated (column : string) (f : cell → result cell) (r : row) : option row :=
  match Dict.get r column with
  | Some value =>
      match f value with
      | Ok value' => Some (Dict.set r column value')
      | Raise _ => None
      end
  | None => None
  end.

(** What line 13 raises on a row, if it does. *)
Definition manipulation_error (column : string) (f : cell → result cell) (r : row)
    : option exn :=
  match Dict.getitem r column ≫= f with
  | Ok _ => None
  | Raise e => Some e
  end.

(** ** [dataSelection] *)

(** The row that lines 67-69 build from [r]: empty when [columns] is
    [None] or empty. *)
Definition projected (columns : option (list string)) (r : row) : row :=
  match columns with
  | Some (col :: cols) => select_columns (col :: cols) r
  | Some [] | None => []
  end.

(** Whether line 70 keeps the row at index [i]. *)
Definition kept (rows : option (list Z)) (i : nat) : Prop :=
  match rows with
  | None => True
  | Some indices => Z.of_nat i ∈ indices
  end.

#[global] Instance kept_dec rows i : Decision (kept rows i).
Proof. destruct rows; simpl; apply _. Defined.

(** ** Modes and maxima *)

(** [mode_of values mode]: [mode] is the null marker when [values] is empty
    and otherwise one of [values] that no other occurs more often than. *)
Inductive mode_of : list cell → cell → Prop :=
  | mode_of_empty : mode_of [] VNone
  | mode_of_most_frequent values mode :
      mode ∈ values →
      (∀ value, value ∈ values → (py_count values value ≤ py_count values mode)%nat) →
      mode_of values mode.

(** [m] is the greatest of [numbers]. *)
Definition greatest_of (numbers : list Qc) (m : Qc) : Prop :=
  m ∈ numbers ∧ ∀ q, q ∈ numbers → (q ≤ m)%Qc.

(** * Properties *)

#[local] Set Warnings "-clear-no-such-hyp".

(** ** Results and loops *)

Lemma bind_Ok {A B} (f : A → result B) (m : result A) (b : B) :
  m ≫= f = Ok b ↔ ∃ a, m = Ok a ∧ f a = Ok b.
Proof. destruct m; simpl; split; [eauto | intros (? & [= <-] & ?); done | done | intros (? & [=] & _)]. Qed.

Lemma for_each_app {A B} (body : B → A → result B) acc l1 l2 :
  for_each body acc (l1 ++ l2) = for_each body acc l1 ≫= λ acc', for_each body acc' l2.
Proof.
  revert acc. induction l1 as [|x l1 IH]; intros acc; simpl; [done|].
  destruct (body acc x); simpl; auto.
Qed.

(** ** Dictionaries *)

Module DictFacts.
Section facts.
Context {K V : Type} `{EqDecision K}.
Implicit Types (d : list (K * V)) (k : K) (v : V).

Lemma get_set_eq d k v : Dict.get (Dict.set d k v) k = Some v.
Proof.
  induction d as [|[k' v'] d IH]; simpl.
  - by rewrite decide_True.
  - destruct (decide (k = k')) as [->|Hne]; simpl.
    + by rewrite decide_True.
    + by rewrite decide_False.
Qed.

Lemma get_set_ne d k k' v : k ≠ k' → Dict.get (Dict.set d k v) k' = Dict.get d k'.
Proof.
  intros Hne. induction d as [|[k0 v0] d IH]; simpl.
  - by rewrite decide_False.
  - destruct (decide (k = k0)) as [->|Hne0]; simpl.
    + by rewrite !decide_False.
    + by rewrite IH.
Qed.

Lemma get_set d k k' v :
  Dict.get (Dict.set d k v) k' = if decide (k = k') then Some v else Dict.get d k'.
Proof. case_decide; subst; auto using get_set_eq, get_set_ne. Qed.

Lemma get_Some_keys d k v : Dict.get d k = Some v → k ∈ Dict.keys d.
Proof.
  induction d as [|[k' v'] d IH]; simpl; [done|].
  case_decide; subst; intros; [left | right; auto].
Qed.

Lemma get_None_keys d k : Dict.get d k = None ↔ k ∉ Dict.keys d.
Proof.
  induction d as [|[k' v'] d IH]; simpl.
  - split; [intros _; apply not_elem_of_nil | done].
  - rewrite not_elem_of_cons. case_decide as Hk; [subst; naive_solver|].
    rewrite IH. naive_solver.
Qed.

Lemma mem_get d k : Dict.mem d k = true ↔ is_Some (Dict.get d k).
Proof.
  unfold Dict.mem. destruct (Dict.get d k) as [v|].
  - split; eauto.
  - split; [done | by intros [? ?]].
Qed.

Lemma keys_set_mem d k v :
  Dict.mem d k = true → Dict.keys (Dict.set d k v) = Dict.keys d.
Proof.
  unfold Dict.mem. induction d as [|[k' v'] d IH]; simpl; [done|].
  case_decide; subst; simpl; [done|]. intros. f_equal. auto.
Qed.

Lemma keys_set_new d k v :
  Dict.mem d k = false → Dict.keys (Dict.set d k v) = Dict.keys d ++ [k].
Proof.
  unfold Dict.mem. induction d as [|[k' v'] d IH]; simpl; [done|].
  case_decide; subst; simpl; [done|]. intros. f_equal. auto.
Qed.
Lemma set_set d k v v' :
  Dict.set (Dict.set d k v) k v' = Dict.set d k v'.
Proof.
  induction d as [|[k0 v0] d IH]; simpl.
  - by rewrite decide_True.
  - case_decide; simpl.
    + by rewrite decide_True.
    + rewrite decide_False by done. by rewrite IH.
Qed.

Lemma keys_set d k v :
  Dict.keys (Dict.set d k v) =
    if decide (k ∈ Dict.keys d) then Dict.keys d else Dict.keys d ++ [k].
Proof.
  case_decide as Hin.
  - apply keys_set_mem. apply mem_get. destruct (Dict.get d k) eqn:Hget; [done|].
    by apply get_None_keys in Hget.
  - apply keys_set_new. apply get_None_keys in Hin. unfold Dict.mem. by rewrite Hin.
Qed.

Lemma get_elem_of d k v :
  NoDup (Dict.keys d) → (k, v) ∈ d → Dict.get d k = Some v.
Proof.
  induction d as [|[k0 v0] d IH]; simpl; [by intros _ ?%elem_of_nil|].
  intros [Hk0 Hd]%NoDup_cons [[= -> ->]|Hin]%elem_of_cons.
  - by rewrite decide_True.
  - rewrite decide_False; [by apply IH|]. intros ->. apply Hk0.
    apply list_elem_of_fmap. by exists (k0, v).
Qed.

Lemma set_get_id d k v :
  Dict.get d k = Some v → Dict.set d k v = d.
Proof.
  induction d as [|[k0 v0] d IH]; simpl; [done|].
  case_decide; [intros [= ->]; by subst | intros; f_equal; auto].
Qed.

Lemma keys_set_present d k v v' :
  Dict.get d k = Some v → Dict.keys (Dict.set d k v') = Dict.keys d.
Proof. intros Hget. apply keys_set_mem. unfold Dict.mem. by rewrite Hget. Qed.

Lemma get_Some_lookup d k v :
  Dict.get d k = Some v → ∃ i, d !! i = Some (k, v).
Proof.
  induction d as [|[k0 v0] d IH]; simpl; [done|]. case_decide as Hk.
  - intros [= ->]. subst. by exists 0%nat.
  - intros [i Hi]%IH. by exists (S i).
Qed.
End facts.
End DictFacts.

Import DictFacts.

(** Induction over cells that also reaches the elements of a sequence. *)
Lemma cell_nested_ind (P : cell → Prop) :
  P VNone →
  (∀ s, P (VStr s)) →
  (∀ q, P (VNum q)) →
  (∀ l, Forall P l → P (VList l)) →
  (∀ l, Forall P l → P (VTuple l)) →
  ∀ c, P c.
Proof.
  intros HNone HStr HNum HList HTuple.
  refine (fix IH (c : cell) : P c :=
    match c with
    | VNone => HNone
    | VStr s => HStr s
    | VNum q => HNum q
    | VList l => HList l _
    | VTuple l => HTuple l _
    end);
  exact ((fix all (l : list cell) : Forall P l :=
    match l with
    | [] => Forall_nil_2 P
    | x :: l' => Forall_cons_2 P x l' (IH x) (all l')
    end) l).
Qed.

(** ** [dataCleaning] *)

Section cleaning_facts.
Variable set_order : list cell → list cell.
Implicit Types (dataset rows : list row) (r : row) (column strategy : string).

Lemma impute_imputed dataset strategy cleaned_row column :
  impute set_order dataset strategy cleaned_row column =
  imputed set_order dataset strategy column ≫= λ o,
    Ok (from_option (Dict.set cleaned_row column) cleaned_row o).
Proof.
  unfold impute, imputed.
  repeat case_decide; simpl; try done.
  - destruct (py_sum _); simpl; [|done]. by destruct (py_truediv _ _).
  - destruct (py_sorted _) as [values|]; simpl; [|done].
    case_decide; [done|]. by destruct (values !! _).
  - by destruct (py_mode _ _).
Qed.

Lemma clean_cell_cleaned dataset strategy r cleaned_row column :
  clean_cell set_order dataset strategy r cleaned_row column =
  match Dict.get r column with
  | Some value =>
      cleaned_cell set_order dataset strategy column value ≫= λ o,
        Ok (from_option (Dict.set cleaned_row column) cleaned_row o)
  | None => Ok cleaned_row
  end.
Proof.
  unfold clean_cell, cleaned_cell. destruct (Dict.get r column) as [value|]; [|done].
  destruct (is_missing value); [apply impute_imputed | done].
Qed.

(** The loop over the columns succeeds exactly when every cell it has to
    fill can be computed. *)
Lemma clean_columns_Ok dataset strategy r columns cleaned_row :
  is_Ok (for_each (clean_cell set_order dataset strategy r) cleaned_row columns) ↔
  ∀ column value, column ∈ columns → Dict.get r column = Some value →
    is_Ok (cleaned_cell set_order dataset strategy column value).
Proof.
  revert cleaned_row. induction columns as [|c columns IH]; intros cleaned_row; simpl.
  - split; [intros _ ? ? []%elem_of_nil | by eexists].
  - rewrite clean_cell_cleaned. split.
    + intros [out Hout] column value Hin Hget.
      destruct (Dict.get r c) as [v|] eqn:Hc; simpl in Hout.
      * apply bind_Ok in Hout as (acc' & Hstep & Hrest).
        apply bind_Ok in Hstep as (o & Ho & _).
        apply elem_of_cons in Hin as [->|Hin].
        -- rewrite Hc in Hget. injection Hget as <-. by eexists.
        -- eapply IH; [by eexists | done..].
      * apply elem_of_cons in Hin as [->|Hin]; [congruence|].
        eapply IH; [by eexists | done..].
    + intros Hall. destruct (Dict.get r c) as [v|] eqn:Hc; simpl.
      * destruct (Hall c v) as [o Ho]; [left | done |]. rewrite Ho. simpl.
        apply IH. intros. eapply Hall; [by right | done].
      * apply IH. intros. eapply Hall; [by right | done].
Qed.

(** Every lookup in the row that the loop over the columns builds. *)
Lemma clean_columns_get dataset strategy r columns cleaned_row out column :
  for_each (clean_cell set_order dataset strategy r) cleaned_row columns = Ok out →
  Dict.get out column =
    match (if decide (column ∈ columns) then Dict.get r column else None) with
    | Some value =>
        match cleaned_cell set_order dataset strategy column value with
        | Ok (Some filled) => Some filled
        | _ => Dict.get cleaned_row column
        end
    | None => Dict.get cleaned_row column
    end.
Proof.
  revert cleaned_row. induction columns as [|c columns IH]; intros cleaned_row;
    cbn [for_each].
  - intros [= <-]. case_decide as Hin; [by apply elem_of_nil in Hin | done].
  - rewrite clean_cell_cleaned. intros Hout.
    apply bind_Ok in Hout as (acc' & Hstep & Hrest).
    rewrite (IH _ Hrest). clear IH Hrest.
    destruct (decide (column = c)) as [->|Hne].
    + rewrite (decide_True (P := c ∈ c :: columns)) by left.
      destruct (Dict.get r c) as [v|] eqn:Hc.
      * apply bind_Ok in Hstep as (o & Ho & [= <-]). rewrite Ho.
        destruct o as [filled|]; simpl;
          case_decide; rewrite ?Ho, ?get_set_eq; done.
      * injection Hstep as <-. by case_decide.
    + assert (Dict.get acc' column = Dict.get cleaned_row column) as ->.
      { destruct (Dict.get r c) as [v|]; [|by injection Hstep as <-].
        apply bind_Ok in Hstep as (o & Ho & [= <-]).
        destruct o; simpl; [by rewrite get_set_ne|done]. }
      destruct (decide (column ∈ columns)) as [Hin|Hin].
      * by rewrite decide_True by by right.
      * rewrite decide_False; [done|]. by intros [?|?]%elem_of_cons.
Qed.

(** The loop over the rows: one cleaned row per input row, in order. *)
Lemma clean_rows_Ok dataset strategy columns rows cleaned_data out :
  clean_rows set_order dataset strategy columns rows cleaned_data = Ok out ↔
  ∃ cleaned, out = cleaned_data ++ cleaned ∧
    Forall2 (λ r cleaned_row,
      for_each (clean_cell set_order dataset strategy r) [] columns = Ok cleaned_row)
      rows cleaned.
Proof.
  revert cleaned_data out. induction rows as [|r rows IH]; intros cleaned_data out; simpl.
  - split.
    + intros [= <-]. exists []. by rewrite app_nil_r.
    + intros (cleaned & -> & ->%Forall2_nil_inv_l). by rewrite app_nil_r.
  - rewrite bind_Ok. split.
    + intros (cleaned_row & Hrow & (cleaned & -> & Hrest)%IH).
      exists (cleaned_row :: cleaned). rewrite <- app_assoc. split; [done|].
      by constructor.
    + intros (cleaned & -> & (cleaned_row & cleaned' & Hrow & Hrest & ->)%Forall2_cons_inv_l).
      exists cleaned_row. split; [done|]. apply IH. exists cleaned'.
      by rewrite <- app_assoc.
Qed.

Lemma dataCleaning_Ok dataset strategy cleaned :
  dataCleaning set_order dataset strategy = Ok cleaned ↔
  dataset ≠ [] ∧
  Forall2 (λ r cleaned_row,
    for_each (clean_cell set_order dataset strategy r) [] (schema dataset) = Ok cleaned_row)
    dataset cleaned.
Proof.
  unfold dataCleaning. destruct dataset as [|first rest] eqn:Hds.
  - split; [done | by intros [? _]].
  - rewrite <- Hds. rewrite clean_rows_Ok. simpl. subst dataset. simpl. split.
    + intros (? & -> & ?). done.
    + intros [_ ?]. eauto.
Qed.

Lemma dataCleaning_is_Ok dataset strategy :
  is_Ok (dataCleaning set_order dataset strategy) ↔
  dataset ≠ [] ∧
  ∀ r column value, r ∈ dataset → column ∈ schema dataset →
    Dict.get r column = Some value →
    is_Ok (cleaned_cell set_order dataset strategy column value).
Proof.
  unfold is_Ok at 1. setoid_rewrite dataCleaning_Ok. split.
  - intros (cleaned & Hne & Hall). split; [done|].
    intros r column value (i & Hi)%list_elem_of_lookup Hcol Hget.
    destruct (Forall2_lookup_l _ _ _ _ _ Hall Hi) as (cleaned_row & _ & Hrow).
    eapply clean_columns_Ok; [by eexists | done..].
  - intros [Hne Hcells].
    cut (∀ rows, (∀ r column value, r ∈ rows → column ∈ schema dataset →
           Dict.get r column = Some value →
           is_Ok (cleaned_cell set_order dataset strategy column value)) →
         ∃ cleaned, Forall2 (λ r cleaned_row,
           for_each (clean_cell set_order dataset strategy r) [] (schema dataset)
             = Ok cleaned_row) rows cleaned).
    { intros Hrows. destruct (Hrows dataset Hcells) as [cleaned ?]. by exists cleaned. }
    clear Hcells. induction rows as [|r rows IH]; intros Hcells.
    + by exists [].
    + destruct IH as [cleaned Hcleaned].
      { intros. eapply Hcells; [by right | done..]. }
      destruct (proj2 (clean_columns_Ok dataset strategy r (schema dataset) []))
        as [cleaned_row ?].
      { intros. eapply Hcells; [by left | done..]. }
      exists (cleaned_row :: cleaned). by constructor.
Qed.

Lemma dataCleaning_lookup dataset strategy cleaned :
  dataCleaning set_order dataset strategy = Ok cleaned →
  length cleaned = length dataset ∧
  ∀ i r, dataset !! i = Some r →
    ∃ cleaned_row, cleaned !! i = Some cleaned_row ∧
      ∀ column,
        Dict.get cleaned_row column =
          match (if decide (column ∈ schema dataset) then Dict.get r column else None) with
          | Some value =>
              match cleaned_cell set_order dataset strategy column value with
              | Ok (Some filled) => Some filled
              | _ => None
              end
          | None => None
          end.
Proof.
  intros [Hne Hall]%dataCleaning_Ok. split.
  - symmetry. by eapply Forall2_length.
  - intros i r Hi.
    destruct (Forall2_lookup_l _ _ _ _ _ Hall Hi) as (cleaned_row & ? & Hrow).
    exists cleaned_row. split; [done|]. intros column.
    by rewrite (clean_columns_get _ _ _ _ _ _ column Hrow).
Qed.
End cleaning_facts.

(** ** Sums, means and order *)

Lemma Forall_is_number values :
  Forall is_number values ↔ ∃ numbers, values = VNum <$> numbers.
Proof.
  split.
  - induction 1 as [|value values [q ->] _ [numbers ->]]; [by exists []|].
    by exists (q :: numbers).
  - intros [numbers ->]. apply Forall_fmap, Forall_true. intros q. by exists q.
Qed.

Lemma py_sum_from_numbers acc numbers :
  py_sum_from acc (VNum <$> numbers) = Ok (acc + sum_numbers numbers)%Qc.
Proof.
  revert acc. induction numbers as [|q numbers IH]; intros acc; simpl.
  - by rewrite Qcplus_0_r.
  - by rewrite IH, Qcplus_assoc.
Qed.


Lemma py_sum_numbers numbers : py_sum (VNum <$> numbers) = Ok (sum_numbers numbers).
Proof. unfold py_sum. by rewrite py_sum_from_numbers, Qcplus_0_l. Qed.

Lemma py_len_nonzero {A} (values : list A) : values ≠ [] → py_len values ≠ 0%Qc.
Proof.
  intros Hne Hlen. unfold py_len in Hlen. rewrite <- Z2Qc_inj_0 in Hlen.
  apply Z2Qc_inj in Hlen. destruct values; [done | simpl in Hlen; lia].
Qed.

Lemma py_len_fmap {A B} (f : A → B) (values : list A) : py_len (f <$> values) = py_len values.
Proof. unfold py_len. by rewrite length_fmap. Qed.

(** [<] is asymmetric wherever it is defined. *)
Lemma py_lt_asym a b : py_lt a b = Ok true → py_lt b a = Ok false.
Proof.
  revert b. induction a as [ | s | p | l IH | l IH] using cell_nested_ind;
    intros [ | t | q | m | m]; simpl; try done.
  - intros [= Hlt]. f_equal. unfold String.ltb in *.
    rewrite String.compare_antisym. by destruct (String.compare s t).
  - intros [= Hlt%bool_decide_eq_true]. f_equal. apply bool_decide_eq_false.
    by apply Qcle_not_lt, Qclt_le_weak.
  - revert m. induction IH as [|x l Hx _ IHl]; intros [|y m]; try done.
    destruct (decide (x = y)) as [->|Hne].
    + rewrite decide_True by done. apply IHl.
    + rewrite decide_False by done. apply Hx.
  - revert m. induction IH as [|x l Hx _ IHl]; intros [|y m]; try done.
    destruct (decide (x = y)) as [->|Hne].
    + rewrite decide_True by done. apply IHl.
    + rewrite decide_False by done. apply Hx.
Qed.

Lemma py_insert_Permutation x sorted out :
  py_insert x sorted = Ok out → out ≡ₚ x :: sorted.
Proof.
  revert out. induction sorted as [|y sorted IH]; intros out; simpl.
  - by intros [= <-].
  - intros (smaller & _ & Hout)%bind_Ok. destruct smaller.
    + by injection Hout as <-.
    + apply bind_Ok in Hout as (rest & Hrest%IH & [= <-]).
      rewrite Hrest. apply Permutation_swap.
  Qed.

Lemma py_insert_Sorted x sorted out :
  py_insert x sorted = Ok out → Sorted not_greater sorted → Sorted not_greater out.
Proof.
  revert out. induction sorted as [|y sorted IH]; intros out; simpl.
  - intros [= <-] _. by repeat constructor.
  - intros (smaller & Hlt & Hout)%bind_Ok Hsorted. destruct smaller.
    + injection Hout as <-. constructor; [done|]. constructor.
      by apply py_lt_asym.
    + apply bind_Ok in Hout as (rest & Hrest & [= <-]).
      apply Sorted_inv in Hsorted as [Hsorted Hhd].
      constructor; [by apply IH|].
      destruct sorted as [|z sorted]; simpl in Hrest.
      * injection Hrest as <-. by constructor.
      * apply bind_Ok in Hrest as (smaller & _ & Hrest). destruct smaller.
        -- injection Hrest as <-. by constructor.
        -- apply bind_Ok in Hrest as (? & _ & [= <-]). constructor.
           by apply HdRel_inv in Hhd.
Qed.

Lemma py_sorted_Permutation values sorted :
  py_sorted values = Ok sorted → sorted ≡ₚ values.
Proof.
  revert sorted. induction values as [|x values IH]; intros sorted; simpl.
  - by intros [= <-].
  - intros (rest & Hrest%IH & Hout%py_insert_Permutation)%bind_Ok.
    by rewrite Hout, Hrest.
Qed.

Lemma py_sorted_Sorted values sorted :
  py_sorted values = Ok sorted → Sorted not_greater sorted.
Proof.
  revert sorted. induction values as [|x values IH]; intros sorted; simpl.
  - intros [= <-]. constructor.
  - intros (rest & Hrest%IH & Hout)%bind_Ok. by eapply py_insert_Sorted.
Qed.

Lemma py_insert_numbers q numbers :
  ∃ out, py_insert (VNum q) (VNum <$> numbers) = Ok (VNum <$> out).
Proof.
  induction numbers as [|p numbers [out IH]].
  - by exists [q].
  - rewrite fmap_cons. cbn [py_insert]. simpl py_lt. cbn [mbind result_bind].
    case_bool_decide.
    + by exists (q :: p :: numbers).
    + rewrite IH. by exists (p :: out).
Qed.

Lemma py_sorted_numbers numbers :
  ∃ out, py_sorted (VNum <$> numbers) = Ok (VNum <$> out).
Proof.
  induction numbers as [|q numbers [rest IH]].
  - by exists [].
  - rewrite fmap_cons. cbn [py_sorted]. rewrite IH. apply py_insert_numbers.
Qed.

(** On numbers [not_greater] is [≤]. *)
Lemma not_greater_numbers p q : not_greater (VNum p) (VNum q) ↔ (p ≤ q)%Qc.
Proof.
  unfold not_greater. simpl. split.
  - intros [= Hlt%bool_decide_eq_false]. by apply Qcnot_lt_le.
  - intros Hle. f_equal. apply bool_decide_eq_false. by apply Qcle_not_lt.
Qed.



Lemma imputed_median set_order dataset column o :
  imputed set_order dataset "median" column = Ok o →
  ∃ median, o = Some median ∧ median_of (present_values dataset column) median.
Proof.
  unfold imputed. rewrite decide_False by done. rewrite decide_True by done.
  intros (sorted & Hsorted & Hout)%bind_Ok.
  pose proof (py_sorted_Permutation _ _ Hsorted) as Hperm.
  case_decide as Hnil.
  - injection Hout as <-. exists VNone. split; [done|]. subst sorted.
    apply Permutation_nil_l in Hperm. rewrite <- Hperm. constructor.
  - destruct (sorted !! _) as [median|] eqn:Hmedian; [|done]. injection Hout as <-.
    exists median. split; [done|]. econstructor; [| done | by eapply py_sorted_Sorted |].
    + intros Hvalues. rewrite Hvalues in Hperm. by apply Permutation_nil_r in Hperm.
    + by rewrite <- Hperm.
Qed.

Lemma imputed_median_Ok set_order dataset column :
  Forall is_number (present_values dataset column) →
  is_Ok (imputed set_order dataset "median" column).
Proof.
  intros [numbers Hnumbers]%Forall_is_number.
  unfold imputed. rewrite decide_False by done. rewrite decide_True by done.
  rewrite Hnumbers. destruct (py_sorted_numbers numbers) as [out ->].
  cbn [mbind result_bind]. case_decide; [by eexists|].
  destruct (lookup_lt_is_Some_2 (VNum <$> out) (length (VNum <$> out) / 2)%nat) as [median ->];
    [|by eexists].
  destruct out; [done|]. apply Nat.div_lt; simpl; lia.
Qed.

(** The shape shared by the strategies that fill a missing cell with a value
    computed from the column: the call returns when the columns to fill hold
    numbers, and what it returns has the row count of the input, fills every
    missing cell of a schema column as [fills] says and copies the others. *)
Lemma dataCleaning_fills set_order strategy (fills : list cell → cell → Prop) :
  (∀ dataset column o, imputed set_order dataset strategy column = Ok o →
     ∃ filled, o = Some filled ∧ fills (present_values dataset column) filled) →
  (∀ dataset column, Forall is_number (present_values dataset column) →
     is_Ok (imputed set_order dataset strategy column)) →
  ∀ dataset, dataset ≠ [] →
    ((∀ r column value, r ∈ dataset → column ∈ schema dataset →
        Dict.get r column = Some value → is_missing value →
        Forall is_number (present_values dataset column)) →
     is_Ok (dataCleaning set_order dataset strategy)) ∧
    ∀ cleaned, dataCleaning set_order dataset strategy = Ok cleaned →
      length cleaned = length dataset ∧
      ∀ i r, dataset !! i = Some r →
        ∃ cleaned_row, cleaned !! i = Some cleaned_row ∧
          ∀ column value, column ∈ schema dataset → Dict.get r column = Some value →
            if is_missing value
            then ∃ filled, fills (present_values dataset column) filled ∧
                   Dict.get cleaned_row column = Some filled
            else Dict.get cleaned_row column = Some value.
Proof.
  intros Hfills Hnumbers dataset Hne. split.
  - intros Hcolumns. apply dataCleaning_is_Ok. split; [done|].
    intros r column value Hr Hcolumn Hget. unfold cleaned_cell.
    destruct (is_missing value) eqn:Hmissing; [|by eexists].
    apply Hnumbers. eapply Hcolumns; [done.. |]. by rewrite Hmissing.
  - intros cleaned Hcleaned.
    pose proof (proj2 (proj1 (dataCleaning_is_Ok _ _ _) (ex_intro _ _ Hcleaned))) as Hcells.
    destruct (dataCleaning_lookup _ _ _ _ Hcleaned) as [Hlength Hrows].
    split; [done|]. intros i r Hi.
    destruct (Hrows i r Hi) as (cleaned_row & Hrow & Hget). exists cleaned_row.
    split; [done|]. intros column value Hcolumn Hvalue.
    rewrite Hget, decide_True, Hvalue by done.
    destruct (Hcells r column value) as [o Ho]; [by eapply list_elem_of_lookup_2 | done..|].
    rewrite Ho. unfold cleaned_cell in Ho. destruct (is_missing value).
    + apply Hfills in Ho as (filled & -> & ?). by exists filled.
    + by injection Ho as <-.
Qed.



(** C9. With the strategy "median", [dataCleaning] on a dataset with at
    least one row replaces every missing cell of a schema column by the item
    at index [count / 2] of the non-missing values of that column in
    ascending order, the upper of the two middle items when the count is
    even, or by the null marker when there is none, and copies the other
    cells; it returns whenever the columns it has to fill hold numbers. *)
Theorem dataCleaning_median set_order dataset :
  dataset ≠ [] →
  ((∀ r column value, r ∈ dataset → column ∈ schema dataset →
      Dict.get r column = Some value → is_missing value →
      Forall is_number (present_values dataset column)) →
   is_Ok (dataCleaning set_order dataset "median")) ∧
  ∀ cleaned, dataCleaning set_order dataset "median" = Ok cleaned →
    length cleaned = length dataset ∧
    ∀ i r, dataset !! i = Some r →
      ∃ cleaned_row, cleaned !! i = Some cleaned_row ∧
        ∀ column value, column ∈ schema dataset → Dict.get r column = Some value →
          if is_missing value
          then ∃ median, median_of (present_values dataset column) median ∧
                 Dict.get cleaned_row column = Some median
          else Dict.get cleaned_row column = Some value.
Proof. apply dataCleaning_fills; [apply imputed_median | apply imputed_median_Ok]. Qed.

Lemma dataCleaning_median_witness :
  let dataset : list row :=
    [[("c", VStr "")]; [("c", int 3)]; [("c", int 1)]; [("c", int 2)]; [("c", int 4)]] in
  dataset ≠ [] ∧
  ∃ cleaned_row median, dataCleaning remove_dups dataset "median"
      = Ok (cleaned_row :: drop 1 dataset) ∧
    median_of [int 3; int 1; int 2; int 4] median ∧
    Dict.get cleaned_row "c" = Some median.
Proof.
  intros dataset. split; [done|].
  destruct (dataCleaning_median remove_dups dataset) as [_ Hcleaned]; [done|].
  destruct (Hcleaned [[("c", int 3)]; [("c", int 3)]; [("c", int 1)]; [("c", int 2)];
                      [("c", int 4)]]) as [_ Hrows]; [by vm_compute|].
  destruct (Hrows 0%nat [("c", VStr "")] eq_refl) as (cleaned_row & Hrow & Hcells).
  destruct (Hcells "c" (VStr "")) as (median & Hmedian & Hget); [by left | done|].
  injection Hrow as <-. exists [("c", int 3)], median. split; [by vm_compute|].
  split; [exact Hmedian | exact Hget].
Defined.

(** Of the four values 1, 2, 3, 4 the cell takes 3, the upper middle one. *)
Example dataCleaning_median_even set_order :
  dataCleaning set_order
    [[("c", VStr "")]; [("c", int 3)]; [("c", int 1)]; [("c", int 2)]; [("c", int 4)]]
    "median"
  = Ok [[("c", int 3)]; [("c", int 3)]; [("c", int 1)]; [("c", int 2)]; [("c", int 4)]].
Proof. by vm_compute. Qed.

(** With the strategy "remove" the call always returns, and it returns as
    many rows as it was given: line 46 leaves the loop over the columns, not
    the loop over the rows. *)
Lemma dataCleaning_remove_keeps_every_row set_order dataset :
  dataset ≠ [] →
  ∃ cleaned, dataCleaning set_order dataset "remove" = Ok cleaned ∧
    length cleaned = length dataset.
Proof.
  intros Hne.
  destruct (proj2 (dataCleaning_is_Ok set_order dataset "remove")) as [cleaned Hcleaned].
  { split; [done|]. intros r column value _ _ _. unfold cleaned_cell, imputed.
    destruct (is_missing value); by eexists. }
  exists cleaned. split; [done|]. by apply dataCleaning_lookup in Hcleaned as [? _].
Qed.

(** C1 fails on the code.  The first row has a missing cell in column 'b';
    the call returns that row without the column instead of dropping it. *)
Theorem dataCleaning_remove_keeps_incomplete_row set_order :
  dataCleaning set_order
    [[("a", int 1); ("b", VNone)]; [("a", int 2); ("b", int 3)]] "remove"
  = Ok [[("a", int 1)]; [("a", int 2); ("b", int 3)]].
Proof. reflexivity. Qed.

Section first_seen.
Context {A : Type} `{EqDecision A}.
Implicit Types (l : list A) (x : A).

Lemma elem_of_first_seen l x : x ∈ first_seen l ↔ x ∈ l.
Proof.
  induction l as [|y l IH]; simpl; [done|].
  rewrite !elem_of_cons, list_elem_of_filter, IH.
  destruct (decide (x = y)); naive_solver.
Qed.

Lemma NoDup_first_seen l : NoDup (first_seen l).
Proof.
  induction l as [|y l IH]; simpl; constructor.
  - rewrite list_elem_of_filter. naive_solver.
  - by apply NoDup_filter.
Qed.

Lemma first_seen_snoc l x :
  first_seen (l ++ [x]) = if decide (x ∈ l) then first_seen l else first_seen l ++ [x].
Proof.
  induction l as [|y l IH]; simpl.
  - done.
  - rewrite IH. destruct (decide (x ∈ l)) as [Hin|Hin].
    + by rewrite decide_True by by right.
    + rewrite filter_app, filter_cons, filter_nil.
      destruct (decide (x = y)) as [->|Hne].
      * rewrite decide_False by naive_solver. rewrite app_nil_r.
        by rewrite decide_True by left.
      * rewrite decide_True by done. rewrite decide_False; [done|].
        by intros [?|?]%elem_of_cons.
Qed.

End first_seen.

(** ** [dataPivoting] *)

Section pivoting_facts.
Implicit Types (dataset rows : list row) (r : row) (pivoted_data : list (cell * cell)).

Lemma pivot_row_Ok pivot_column value_column pivoted_data r out :
  pivot_row pivot_column value_column pivoted_data r = Ok out ↔
  ∃ key value, Dict.get r pivot_column = Some key ∧ hashable key ∧
    Dict.get r value_column = Some value ∧ out = Dict.set pivoted_data key value.
Proof.
  unfold pivot_row, Dict.getitem. split.
  - destruct (Dict.get r pivot_column) as [key|]; simpl; [|done].
    destruct (hashable key) eqn:Hkey; [|done].
    destruct (Dict.get r value_column) as [value|]; simpl; [|done].
    intros [= <-]. exists key, value. rewrite Hkey. repeat split; try done.
    destruct (Dict.mem pivoted_data key); [done | by rewrite set_set].
  - intros (key & value & -> & Hkey & -> & ->). simpl.
    destruct (hashable key); [|done]. simpl.
    destruct (Dict.mem pivoted_data key); [done | by rewrite set_set].
Qed.

Lemma pivot_loop_Ok pivot_column value_column rows pivoted_data :
  for_each (pivot_row pivot_column value_column) [] rows = Ok pivoted_data →
  length (column_of pivot_column rows) = length rows ∧
  Dict.keys pivoted_data = first_seen (column_of pivot_column rows) ∧
  ∀ key, Dict.get pivoted_data key =
    last_with pivot_column key rows ≫= λ r, Dict.get r value_column.
Proof.
  revert pivoted_data. induction rows as [|r rows IH] using rev_ind; intros pivoted_data.
  - intros [= <-]. done.
  - rewrite for_each_app. intros (before & Hbefore & Hlast)%bind_Ok.
    destruct (IH _ Hbefore) as (Hlength & Hkeys & Hget). simpl in Hlast.
    apply bind_Ok in Hlast as (? & Hrow & [= ->]).
    apply pivot_row_Ok in Hrow as (key & value & Hkey & _ & Hvalue & ->).
    unfold column_of, last_with in *.
    rewrite omap_app. simpl. rewrite Hkey. simpl.
    rewrite !length_app, Hlength. split; [done|]. split.
    + rewrite keys_set, first_seen_snoc, Hkeys.
      destruct (decide (key ∈ omap _ rows)) as [Hin|Hin].
      * by rewrite decide_True by by apply elem_of_first_seen.
      * rewrite decide_False; [done|]. by rewrite elem_of_first_seen.
    + intros key'. rewrite get_set, filter_app, filter_cons, filter_nil, Hkey.
      destruct (decide (key = key')) as [->|Hne].
      * rewrite decide_True by done. rewrite last_snoc. simpl. done.
      * rewrite decide_False by congruence. rewrite app_nil_r. apply Hget.
Qed.

Lemma pivot_loop_is_Ok pivot_column value_column rows pivoted_data :
  Forall (λ r : row, ∃ key value, Dict.get r pivot_column = Some key ∧ hashable key ∧
    Dict.get r value_column = Some value) rows →
  is_Ok (for_each (pivot_row pivot_column value_column) pivoted_data rows).
Proof.
  intros Hrows. revert pivoted_data.
  induction Hrows as [|r rows (key & value & ? & ? & ?) _ IH]; intros pivoted_data; simpl.
  - by eexists.
  - rewrite (proj2 (pivot_row_Ok _ _ _ _ _)) by eauto 10. apply IH.
Qed.
End pivoting_facts.

(** C4. Whatever [dataPivoting] returns has one row for each distinct value
    of the pivot column, in the order in which these values first occur; the
    value in that row is the one of the last input row with that pivot value;
    and the fields of the row are named "pivot_column" and "value_column".
    It returns whenever every row has a hashable pivot cell and a value
    cell. *)
Theorem dataPivoting_last_write_wins (dataset : list row) (pivot_column value_column : string) :
  (Forall (λ r : row, ∃ key value, Dict.get r pivot_column = Some key ∧ hashable key ∧
      Dict.get r value_column = Some value) dataset →
   is_Ok (dataPivoting dataset pivot_column value_column)) ∧
  ∀ pivoted, dataPivoting dataset pivot_column value_column = Ok pivoted →
    let keys := column_of pivot_column dataset in
    length keys = length dataset ∧
    NoDup (first_seen keys) ∧
    (∀ key, key ∈ first_seen keys ↔ key ∈ keys) ∧
    Forall2 (λ key pivoted_row, ∃ r value,
        last_with pivot_column key dataset = Some r ∧
        Dict.get r value_column = Some value ∧
        pivoted_row = [("pivot_column", key); ("value_column", value)])
      (first_seen keys) pivoted.
Proof.
  unfold dataPivoting. split.
  - intros Hrows. destruct (pivot_loop_is_Ok _ _ _ [] Hrows) as [pivoted_data ->].
    by eexists.
  - intros pivoted (pivoted_data & Hloop & [= <-])%bind_Ok.
    destruct (pivot_loop_Ok _ _ _ _ Hloop) as (Hlength & Hkeys & Hget).
    split; [done|]. split; [apply NoDup_first_seen|].
    split; [apply elem_of_first_seen|].
    rewrite <- Hkeys. unfold Dict.keys, Dict.items.
    apply Forall2_fmap, Forall2_same_length_lookup_2; [done|].
    intros i [key value] [key' value'] Hi Hi'. simplify_eq/=.
    assert (Dict.get pivoted_data key = Some value) as Hvalue.
    { apply get_elem_of; [|by eapply list_elem_of_lookup_2].
      rewrite Hkeys. apply NoDup_first_seen. }
    rewrite Hget in Hvalue. destruct (last_with _ _ _) as [r|]; [|done].
    by exists r, value.
Qed.

Lemma dataPivoting_last_write_wins_witness :
  dataPivoting
    [[("p", VStr "x"); ("v", int 1)]; [("p", VStr "y"); ("v", int 2)];
     [("p", VStr "x"); ("v", int 3)]] "p" "v"
  = Ok [[("pivot_column", VStr "x"); ("value_column", int 3)];
        [("pivot_column", VStr "y"); ("value_column", int 2)]].
Proof.
  destruct (proj1 (dataPivoting_last_write_wins
    [[("p", VStr "x"); ("v", int 1)]; [("p", VStr "y"); ("v", int 2)];
     [("p", VStr "x"); ("v", int 3)]] "p" "v")) as [pivoted Hpivoted].
  { repeat constructor; by eexists _, _. }
  rewrite Hpivoted. f_equal. vm_compute in Hpivoted. by injection Hpivoted as <-.
Defined.

(** ** [dataSampling] *)

Section sampling_facts.
Context {A : Type}.
Implicit Types (s : list (list A)) (items sampled_data : list A).

(** The loop pops [n] items of the working copy into the sample when the
    copy has that many, and otherwise empties it and then divides by its
    length, which is zero.  It writes to the working copy only. *)
Lemma sample_loop_spec n seed dataset_copy sampled_data s items :
  s !! dataset_copy = Some items →
  ∃ taken rest,
    taken ++ rest ≡ₚ items ∧
    (sample_loop n seed dataset_copy sampled_data s).1 = <[dataset_copy := rest]> s ∧
    if decide (n ≤ length items)%nat
    then length taken = n ∧
         (sample_loop n seed dataset_copy sampled_data s).2 = Ok (sampled_data ++ taken)
    else rest = [] ∧
         (sample_loop n seed dataset_copy sampled_data s).2 = Raise ZeroDivisionError.
Proof.
  revert seed sampled_data s items.
  induction n as [|n IH]; intros seed sampled_data s items Hitems.
  - exists [], items. cbn [sample_loop]. unfold mret, state_ret. cbn [fst snd].
    rewrite list_insert_id by done.
    rewrite decide_True by lia. by rewrite app_nil_r.
  - cbn [sample_loop]. unfold mbind, state_bind, list_len, lift, py_mod, list_pop.
    rewrite (list_lookup_total_correct _ _ _ Hitems).
    destruct items as [|first items'] eqn:Heq.
    + exists [], []. simpl. rewrite list_insert_id by done. done.
    + rewrite <- Heq in *. assert (0 < Z.of_nat (length items)) as Hlen.
      { rewrite Heq. simpl. lia. }
      rewrite decide_False by lia. simpl.
      pose proof (Z.mod_pos_bound seed _ Hlen) as Hbound.
      destruct (lookup_lt_is_Some_2 items (Z.to_nat (seed `mod` Z.of_nat (length items))))
        as [item Hitem]; [lia|].
      rewrite Hitem.
      set (s' := <[dataset_copy := delete _ items]> s).
      destruct (IH (seed + 1) (sampled_data ++ [item]) s'
                  (delete (Z.to_nat (seed `mod` Z.of_nat (length items))) items))
        as (taken & rest & Hperm & Hstore & Hresult).
      { apply list_lookup_insert_eq. by eapply lookup_lt_Some. }
      exists (item :: taken), rest. split; [|split].
      * simpl. rewrite Hperm. symmetry. by apply delete_Permutation.
      * rewrite Hstore. unfold s'. by rewrite list_insert_insert_eq.
      * rewrite length_delete in Hresult by eauto. subst items.
        cbn [length] in *.
        destruct (decide (n ≤ _)%nat) as [Hle|Hgt] in Hresult.
        -- rewrite decide_True by lia. destruct Hresult as [<- ->].
           by rewrite <- app_assoc.
        -- by rewrite decide_False by lia.
Qed.



Lemma py_int_lower_bound z x : (Qc_of_Z z ≤ x)%Qc → z ≤ py_int x.
Proof.
  unfold py_int, Qcle, Qle. simpl. intros Hx.
  apply Z.quot_le_lower_bound; lia.
Qed.




(** The call leaves the lists it found and adds the working copy, which
    holds what was not sampled. *)
Lemma dataSampling_spec now dataset fraction s items :
  s !! dataset = Some items →
  ∃ taken rest,
    taken ++ rest ≡ₚ items ∧
    (dataSampling now dataset fraction s).1 = s ++ [rest] ∧
    if decide (sample_size items fraction ≤ Z.of_nat (length items))
    then Z.of_nat (length taken) = Z.max 0 (sample_size items fraction) ∧
         (dataSampling now dataset fraction s).2 = Ok taken
    else rest = [] ∧
         (dataSampling now dataset fraction s).2 = Raise ZeroDivisionError.
Proof.
  intros Hitems. unfold dataSampling, list_copy, list_len, mbind, state_bind.
  rewrite (list_lookup_total_correct _ _ _ Hitems).
  assert ((s ++ [items]) !! length s = Some items) as Hcopy.
  { by rewrite lookup_app_r, Nat.sub_diag by lia. }
  rewrite (list_lookup_total_correct _ _ _ Hcopy).
  fold (sample_size items fraction).
  destruct (sample_loop_spec (Z.to_nat (sample_size items fraction)) now
              (length s) [] _ _ Hcopy) as (taken & rest & Hperm & Hstore & Hresult).
  exists taken, rest. split; [done|]. split.
  - rewrite Hstore. by rewrite insert_app_r_alt, Nat.sub_diag by lia.
  - destruct (decide (Z.to_nat _ ≤ _)%nat) as [Hle|Hgt] in Hresult.
    + rewrite decide_True by lia. destruct Hresult as [Hlength ->]. split; [lia | done].
    + by rewrite decide_False by lia.
Qed.
End sampling_facts.



(** C8. [dataSampling] works on a copy: whatever the fraction, and whether it
    returns or raises, the dataset it was given holds the same items in the
    same order afterwards, and so does every other list that existed. *)
Theorem dataSampling_leaves_dataset {A} (now : Z) (dataset : nat) (fraction : Qc)
    (s : list (list A)) (items : list A) :
  s !! dataset = Some items →
  (dataSampling now dataset fraction s).1 !! dataset = Some items ∧
  ∀ l other, s !! l = Some other →
    (dataSampling now dataset fraction s).1 !! l = Some other.
Proof.
  intros Hitems.
  destruct (dataSampling_spec now dataset fraction s items Hitems)
    as (taken & rest & _ & -> & _).
  split; [by apply lookup_app_l_Some|]. intros l other Hother.
  by apply lookup_app_l_Some.
Qed.

Lemma dataSampling_leaves_dataset_witness :
  (dataSampling 1700000000 0%nat (Q2Qc (1 # 2)) [[10; 20; 30]%nat]).1 !! 0%nat
    = Some [10; 20; 30]%nat.
Proof.
  exact (proj1 (dataSampling_leaves_dataset 1700000000 0%nat (Q2Qc (1 # 2))
                  [[10; 20; 30]%nat] [10; 20; 30]%nat eq_refl)).
Defined.




(** ** [dataGroupBy]: the loop over the columns *)

Section wrap_facts.
Implicit Types (r : row) (value : cell) (column : string).

Lemma wrap_wrap value : wrap (wrap value) = wrap value.
Proof. by destruct value. Qed.

Lemma collect_column_eq r group column agg_function :
  collect_column (r, group) (column, agg_function) =
  match Dict.get r column with
  | Some value => (Dict.set r column (wrap value), accumulate group column value)
  | None => (r, group)
  end.
Proof.
  unfold collect_column, accumulate. destruct (Dict.get r column) as [value|] eqn:Hget; [|done].
  unfold wrap. destruct (is_list_or_tuple value) eqn:Hseq; cbv beta iota zeta.
  - rewrite (set_get_id r column value) by done. by rewrite Hget.
  - by rewrite get_set_eq.
Qed.

Lemma wrap_columns_cons c columns r :
  wrap_columns (c :: columns) r =
  wrap_columns columns
    match Dict.get r c with
    | Some value => Dict.set r c (wrap value)
    | None => r
    end.
Proof. done. Qed.

Lemma collect_values_cons r group c columns :
  collect_values r group (c :: columns) =
  collect_values r
    match Dict.get r c with
    | Some value => accumulate group c value
    | None => group
    end columns.
Proof. done. Qed.

Lemma keys_wrap_columns columns r : Dict.keys (wrap_columns columns r) = Dict.keys r.
Proof.
  revert r. induction columns as [|c columns IH]; intros r; [done|].
  rewrite wrap_columns_cons, IH.
  destruct (Dict.get r c) eqn:Hget; [by eapply keys_set_present | done].
Qed.

Lemma get_wrap_columns columns r column :
  Dict.get (wrap_columns columns r) column =
    if decide (column ∈ columns) then wrap <$> Dict.get r column else Dict.get r column.
Proof.
  revert r. induction columns as [|c columns IH]; intros r.
  - simpl. done.
  - rewrite wrap_columns_cons, IH.
    destruct (decide (column = c)) as [->|Hne].
    + rewrite (decide_True (P := c ∈ c :: columns)) by left.
      destruct (Dict.get r c) as [value|] eqn:Hget.
      * rewrite get_set_eq. simpl. rewrite wrap_wrap. by case_decide.
      * rewrite Hget. by case_decide.
    + assert (Dict.get (match Dict.get r c with
                        | Some value => Dict.set r c (wrap value)
                        | None => r
                        end) column = Dict.get r column) as ->.
      { destruct (Dict.get r c); [by apply get_set_ne | done]. }
      destruct (decide (column ∈ columns)).
      * by rewrite decide_True by by right.
      * rewrite decide_False; [done|]. by intros [?|?]%elem_of_cons.
Qed.

(** A row in which the cells of [columns] are wrapped already is not
    changed by wrapping them. *)
Lemma wrap_columns_id columns r :
  (∀ column value, column ∈ columns → Dict.get r column = Some value →
     wrap value = value) →
  wrap_columns columns r = r.
Proof.
  induction columns as [|c columns IH]; intros Hwrapped; [done|].
  rewrite wrap_columns_cons.
  destruct (Dict.get r c) as [value|] eqn:Hget.
  - rewrite (Hwrapped c value) by (done || left). rewrite set_get_id by done.
    apply IH. intros. eapply Hwrapped; [by right | done].
  - apply IH. intros. eapply Hwrapped; [by right | done].
Qed.

Lemma wrap_columns_idemp columns r :
  wrap_columns columns (wrap_columns columns r) = wrap_columns columns r.
Proof.
  apply wrap_columns_id. intros column value Hin. rewrite get_wrap_columns.
  rewrite decide_True by done. destruct (Dict.get r column); [|done].
  intros [= <-]. apply wrap_wrap.
Qed.

Lemma accumulate_wrap group column value :
  accumulate group column (wrap value) = accumulate group column value.
Proof. unfold accumulate. by rewrite wrap_wrap. Qed.

Lemma collect_columns_eq r r' group items :
  partly_wrapped r r' →
  foldl collect_column (r', group) items =
    (wrap_columns items.*1 r', collect_values r group items.*1).
Proof.
  revert r' group. induction items as [|[c a] items IH]; intros r' group Hr'; [done|].
  cbn [foldl]. rewrite fmap_cons. cbn [fst].
  rewrite wrap_columns_cons, collect_values_cons, collect_column_eq.
  destruct (Hr' c) as [Hc|Hc]; rewrite Hc;
    destruct (Dict.get r c) as [value|] eqn:Hget; simpl; try (by apply IH).
  - apply IH. intros column. rewrite get_set.
    case_decide; subst; [right; by rewrite Hget | apply Hr'].
  - rewrite accumulate_wrap. apply IH. intros column. rewrite get_set.
    case_decide; subst; [right; by rewrite wrap_wrap, Hget | apply Hr'].
Qed.
End wrap_facts.

(** ** [dataGroupBy]: the loop over the rows *)

Section collect_facts.
Variables (groupby_column : string) (aggregation_functions : list (string * string)).
Let columns := Dict.keys aggregation_functions.
Implicit Types (h before : heap) (r : row) (l : nat) (visited dataset : list nat).
Implicit Types (grouped_data : list (cell * list (string * list cell))).

Lemma hashable_wrap value : hashable (wrap value) → wrap value = value.
Proof. by destruct value. Qed.

Lemma visited_heap_row before visited h l r0 :
  visited_heap columns before visited h → before !! l = Some r0 →
  ∃ r, h !! l = Some r ∧ partly_wrapped r0 r ∧
    wrap_columns columns r = wrap_columns columns r0 ∧
    (∀ key, Dict.get r groupby_column = Some key → hashable key →
       Dict.get r0 groupby_column = Some key) ∧
    (groupby_column ∉ columns →
       Dict.get r groupby_column = Dict.get r0 groupby_column).
Proof.
  intros [_ Hh] Hl. specialize (Hh l). rewrite Hl in Hh. simpl in Hh.
  destruct (decide (l ∈ visited)).
  - eexists. split; [done|]. split; [|split; [|split]].
    + intros column. rewrite get_wrap_columns. case_decide; auto.
    + apply wrap_columns_idemp.
    + intros key. rewrite get_wrap_columns. case_decide; [|done].
      destruct (Dict.get r0 groupby_column) as [key0|]; [|done].
      intros [= <-] Hkey. by rewrite (hashable_wrap _ Hkey).
    + intros Hg. rewrite get_wrap_columns. by rewrite decide_False.
  - exists r0. split; [done|]. split; [by left | done].
Qed.

(** A visit that gets past line 89 writes the wrapped row back and updates
    [grouped_data] as the value of the row before the call says. *)
Lemma collect_row_spec before visited h grouped_data l :
  visited_heap columns before visited h →
  match collect_row groupby_column aggregation_functions grouped_data l h with
  | (h', Ok grouped_data') =>
      visited_heap columns before (l :: visited) h' ∧
      ∃ r0, before !! l = Some r0 ∧
        collect_group groupby_column columns grouped_data r0 = Ok grouped_data'
  | (h', Raise e) => h' = h
  end.
Proof.
  intros Hvisited. unfold collect_row, load, store, lift, mbind, state_bind, mret, state_ret.
  destruct (before !! l) as [r0|] eqn:Hl.
  - destruct (visited_heap_row _ _ _ _ _ Hvisited Hl) as (r & Hr & Hpartly & Hwrap & Hkey & _).
    rewrite (list_lookup_total_correct _ _ _ Hr).
    unfold Dict.getitem. destruct (Dict.get r groupby_column) as [key|] eqn:Hget; [|done].
    destruct (hashable key) eqn:Hhashable; [|done].
    rewrite (collect_columns_eq r0) by done.
    change ((Dict.items aggregation_functions).*1) with columns. rewrite Hwrap.
    split.
    + destruct Hvisited as [Hlength Hh]. split; [by rewrite length_insert|].
      intros l'. destruct (decide (l = l')) as [<-|Hne].
      * rewrite list_lookup_insert_eq by (by eapply lookup_lt_Some).
        rewrite Hl. simpl. by rewrite decide_True by left.
      * rewrite list_lookup_insert_ne by done. rewrite Hh.
        destruct (decide (l' ∈ visited)).
        -- by rewrite decide_True by by right.
        -- rewrite decide_False; [done|]. intros [?|?]%elem_of_cons; done.
    + exists r0. split; [done|]. unfold collect_group, Dict.getitem.
      rewrite (Hkey key) by (done || by rewrite Hhashable). simpl.
      by rewrite Hhashable.
  - destruct Hvisited as [Hlength Hh]. specialize (Hh l). rewrite Hl in Hh. simpl in Hh.
    rewrite list_lookup_total_alt. destruct (h !! l); [done|]. done.
Qed.

Lemma collect_row_total before visited h grouped_data l r0 grouped_data' :
  visited_heap columns before visited h → before !! l = Some r0 →
  groupby_column ∉ columns →
  collect_group groupby_column columns grouped_data r0 = Ok grouped_data' →
  (collect_row groupby_column aggregation_functions grouped_data l h).2
    = Ok grouped_data'.
Proof.
  intros Hvisited Hl Hg Hgroup.
  pose proof (collect_row_spec before visited h grouped_data l Hvisited) as Hspec.
  destruct (collect_row _ _ _ _ _) as [h' [grouped_data''|e]] eqn:Hrow; simpl.
  - destruct Hspec as [_ (r & Hr & Hgroup')]. congruence.
  - exfalso. revert Hrow.
    unfold collect_row, load, store, lift, mbind, state_bind, mret, state_ret.
    destruct (visited_heap_row _ _ _ _ _ Hvisited Hl) as (r & Hr & _ & _ & _ & Hkey).
    rewrite (list_lookup_total_correct _ _ _ Hr).
    unfold collect_group, Dict.getitem in *. rewrite (Hkey Hg).
    destruct (Dict.get r0 groupby_column) as [key|]; [|done]. simpl in *.
    destruct (hashable key); [|done].
    by destruct (foldl _ _ _).
Qed.

Lemma visited_heap_equiv before visited visited' h :
  (∀ l, l ∈ visited ↔ l ∈ visited') →
  visited_heap columns before visited h → visited_heap columns before visited' h.
Proof.
  intros Hequiv [Hlength Hh]. split; [done|]. intros l. rewrite Hh.
  destruct (decide (l ∈ visited)) as [Hin|Hin].
  - by rewrite decide_True by by apply Hequiv.
  - by rewrite decide_False by by rewrite <- Hequiv.
Qed.

(** The loop over the rows visits a prefix of the dataset, all of it when
    it does not raise, and then [grouped_data] is what the values that the
    rows had before the call give. *)
Lemma collect_loop_spec before dataset visited h grouped_data :
  visited_heap columns before visited h →
  match for_each_st (collect_row groupby_column aggregation_functions)
          grouped_data dataset h with
  | (h', Ok grouped_data') =>
      visited_heap columns before (dataset ++ visited) h' ∧
      ∃ rows, Forall2 (λ l r0, before !! l = Some r0) dataset rows ∧
        for_each (collect_group groupby_column columns) grouped_data rows
          = Ok grouped_data'
  | (h', Raise e) =>
      ∃ seen, seen `prefix_of` dataset ∧ seen ≠ dataset ∧
        visited_heap columns before (seen ++ visited) h'
  end.
Proof.
  revert visited h grouped_data.
  induction dataset as [|l dataset IH]; intros visited h grouped_data Hvisited.
  - simpl. split; [done|]. by exists [].
  - cbn [for_each_st]. unfold mbind, state_bind.
    pose proof (collect_row_spec before visited h grouped_data l Hvisited) as Hrow.
    destruct (collect_row _ _ _ _ _) as [h1 [grouped_data1|e]].
    + destruct Hrow as [Hvisited1 (r0 & Hl & Hgroup)].
      specialize (IH _ _ grouped_data1 Hvisited1).
      destruct (for_each_st _ _ _ _) as [h' [grouped_data'|e]].
      * destruct IH as [Hvisited' (rows & Hrows & Hloop)]. split.
        -- eapply visited_heap_equiv; [|done]. intros l'.
           simpl. rewrite ?elem_of_cons, ?elem_of_app, ?elem_of_cons. tauto.
        -- exists (r0 :: rows). split; [by constructor|]. simpl. by rewrite Hgroup.
      * destruct IH as (seen & Hprefix & Hne & Hvisited').
        exists (l :: seen). split; [by apply prefix_cons|]. split; [congruence|].
        eapply visited_heap_equiv; [|done]. intros l'.
        simpl. rewrite ?elem_of_cons, ?elem_of_app, ?elem_of_cons. tauto.
    + subst h1. exists []. split; [apply prefix_nil|]. done.
Qed.

Lemma collect_loop_total before dataset rows visited h grouped_data grouped_data' :
  visited_heap columns before visited h →
  groupby_column ∉ columns →
  Forall2 (λ l r0, before !! l = Some r0) dataset rows →
  for_each (collect_group groupby_column columns) grouped_data rows = Ok grouped_data' →
  (for_each_st (collect_row groupby_column aggregation_functions)
     grouped_data dataset h).2 = Ok grouped_data'.
Proof.
  intros Hvisited Hg Hrows. revert visited h grouped_data Hvisited.
  induction Hrows as [|l r0 dataset rows Hl _ IH]; intros visited h grouped_data Hvisited.
  - by intros [= <-].
  - simpl. intros (grouped_data1 & Hgroup & Hloop)%bind_Ok.
    cbn [for_each_st]. unfold mbind, state_bind.
    pose proof (collect_row_total _ _ _ _ _ _ _ Hvisited Hl Hg Hgroup) as Htotal.
    pose proof (collect_row_spec before visited h grouped_data l Hvisited) as Hrow.
    destruct (collect_row _ _ _ _ _) as [h1 [grouped_data1'|e]]; simpl in Htotal; [|done].
    injection Htotal as ->. destruct Hrow as [Hvisited1 _]. by eapply IH.
Qed.
End collect_facts.

(** ** [dataGroupBy]: what the groups accumulate *)

Section group_facts.
Variables (groupby_column : string) (columns : list string).
Implicit Types (r : row) (rows : list row) (group : list (string * list cell)).
Implicit Types (grouped_data : list (cell * list (string * list cell))).

Lemma get_accumulate group column value column' :
  Dict.get (accumulate group column value) column' =
    if decide (column = column')
    then Some (default [] (Dict.get group column) ++
               filter (λ item, item ≠ VNone) (items_of (wrap value)))
    else Dict.get group column'.
Proof.
  unfold accumulate.
  set (group1 := if Dict.mem group column then group else Dict.set group column []).
  assert (∀ c, Dict.get group1 c =
    if decide (column = c) then Some (default [] (Dict.get group column))
    else Dict.get group c) as Hgroup1.
  { intros c. unfold group1, Dict.mem.
    destruct (Dict.get group column) as [acc|] eqn:Hget; simpl.
    - case_decide; [by subst | done].
    - rewrite get_set. by destruct (decide (column = c)). }
  case_decide as Hvalues.
  - rewrite Hvalues, app_nil_r. apply Hgroup1.
  - rewrite get_set. destruct (decide (column = column')) as [<-|Hne].
    + rewrite Hgroup1. by rewrite decide_True.
    + rewrite Hgroup1. by rewrite decide_False.
Qed.

Lemma get_collect_values r group cols column :
  NoDup cols →
  Dict.get (collect_values r group cols) column =
    if decide (column ∈ cols ∧ is_Some (Dict.get r column))
    then Some (default [] (Dict.get group column) ++ contribution column r)
    else Dict.get group column.
Proof.
  intros Hcols. revert group. induction Hcols as [|c cols Hc _ IH]; intros group.
  - destruct (decide _) as [[?%elem_of_nil _]|]; done.
  - rewrite collect_values_cons, IH. unfold contribution.
    destruct (decide (column = c)) as [->|Hne].
    + destruct (Dict.get r c) as [value|] eqn:Hget.
      * rewrite decide_False by (intros [? _]; done).
        rewrite get_accumulate, decide_True by done.
        rewrite decide_True; [done|]. split; [left | by eexists].
      * rewrite decide_False by (intros [? _]; done).
        rewrite decide_False; [done|]. by intros [_ [? ?]].
    + assert (Dict.get (match Dict.get r c with
                        | Some value => accumulate group c value
                        | None => group
                        end) column = Dict.get group column) as ->.
      { destruct (Dict.get r c); [|done]. rewrite get_accumulate. by rewrite decide_False. }
      destruct (decide (column ∈ cols ∧ is_Some (Dict.get r column))) as [[??]|Hno].
      * rewrite decide_True; [done|]. split; [by right | done].
      * rewrite decide_False; [done|]. intros [[?|?]%elem_of_cons ?]; [done|]. by apply Hno.
Qed.

Lemma collect_group_Ok grouped_data r grouped_data' :
  collect_group groupby_column columns grouped_data r = Ok grouped_data' ↔
  ∃ key, Dict.get r groupby_column = Some key ∧ hashable key ∧
    grouped_data' = Dict.set grouped_data key
      (collect_values r (default [] (Dict.get grouped_data key)) columns).
Proof.
  unfold collect_group, Dict.getitem.
  assert (∀ key, Dict.set
    (if Dict.mem grouped_data key then grouped_data else Dict.set grouped_data key [])
    key (collect_values r (default [] (Dict.get
      (if Dict.mem grouped_data key then grouped_data else Dict.set grouped_data key [])
      key)) columns)
    = Dict.set grouped_data key
        (collect_values r (default [] (Dict.get grouped_data key)) columns)) as Hset.
  { intros key. unfold Dict.mem.
    destruct (Dict.get grouped_data key) eqn:Hget; simpl; [by rewrite Hget|].
    by rewrite set_set, get_set_eq. }
  split.
  - destruct (Dict.get r groupby_column) as [key|]; [|done]. simpl.
    destruct (hashable key) eqn:Hkey; [|done]. intros [= <-].
    exists key. rewrite Hkey. by rewrite Hset.
  - intros (key & -> & Hkey & ->). simpl. destruct (hashable key); [|done].
    by rewrite Hset.
Qed.

(** The groups are the distinct keys in the order of their first
    occurrence. *)
Lemma collect_groups_keys rows grouped_data :
  for_each (collect_group groupby_column columns) [] rows = Ok grouped_data →
  length (column_of groupby_column rows) = length rows ∧
  Forall (λ key, hashable key) (column_of groupby_column rows) ∧
  Dict.keys grouped_data = first_seen (column_of groupby_column rows).
Proof.
  revert grouped_data. induction rows as [|r rows IH] using rev_ind; intros grouped_data.
  - intros [= <-]. repeat split. constructor.
  - rewrite for_each_app. intros (before & Hbefore & Hlast)%bind_Ok.
    destruct (IH _ Hbefore) as (Hlength & Hhashable & Hkeys). simpl in Hlast.
    apply bind_Ok in Hlast as (? & Hrow & [= ->]).
    apply collect_group_Ok in Hrow as (key & Hkey & Hhash & ->).
    unfold column_of in *. rewrite omap_app. simpl. rewrite Hkey. simpl.
    rewrite !length_app, Hlength. split; [done|]. split.
    + apply Forall_app. split; [done|]. by constructor.
    + rewrite keys_set, first_seen_snoc, Hkeys.
      destruct (decide (key ∈ omap _ rows)) as [Hin|Hin].
      * by rewrite decide_True by by apply elem_of_first_seen.
      * rewrite decide_False; [done|]. by rewrite elem_of_first_seen.
Qed.

(** What the loop over the rows has accumulated. *)
Lemma collect_groups_Ok rows grouped_data :
  NoDup columns →
  for_each (collect_group groupby_column columns) [] rows = Ok grouped_data →
  ∀ key column,
    (Dict.get grouped_data key ≫= λ group, Dict.get group column) =
      if decide (column ∈ columns)
      then accumulated groupby_column key column rows else None.
Proof.
  intros Hcolumns.
  revert grouped_data. induction rows as [|r rows IH] using rev_ind; intros grouped_data.
  - intros [= <-]. intros key column. simpl.
    by case_decide.
  - rewrite for_each_app. intros (before & Hbefore & Hlast)%bind_Ok.
    pose proof (IH _ Hbefore) as Hget. simpl in Hlast.
    apply bind_Ok in Hlast as (? & Hrow & [= ->]).
    apply collect_group_Ok in Hrow as (key & Hkey & Hhash & ->).
    intros key' column. rewrite get_set. unfold accumulated, contributors.
    rewrite filter_app, filter_cons, filter_nil, Hkey.
    destruct (decide (key = key')) as [->|Hne].
    + simpl. rewrite get_collect_values by done.
      specialize (Hget key' column). unfold accumulated, contributors in Hget.
      assert (Dict.get (default [] (Dict.get before key')) column
              = Dict.get before key' ≫= λ group, Dict.get group column) as ->.
      { by destruct (Dict.get before key'). }
      rewrite Hget.
      destruct (decide (column ∈ columns)) as [Hin|Hin].
      * destruct (Dict.get r column) as [value|] eqn:Hvalue.
        -- rewrite decide_True by (split; [done | by eexists]).
           rewrite decide_True by (split; [done | by eexists]).
           destruct (filter _ rows) as [|r1 rs]; simpl.
           ++ by rewrite app_nil_r.
           ++ rewrite fmap_app, concat_app. simpl. by rewrite app_nil_r, app_assoc.
        -- rewrite decide_False by (by intros [_ [? ?]]).
           rewrite decide_False by (by intros [_ [? ?]]). by rewrite app_nil_r.
      * by rewrite decide_False by (by intros [? _]).
    + destruct (decide (Some key = Some key' ∧ _)) as [[[= ?] _]|_]; [done|].
      rewrite app_nil_r. apply Hget.
Qed.
End group_facts.

(** ** [dataGroupBy]: the output rows *)

Section aggregate_facts.
Implicit Types (group : list (string * list cell)) (r : row).
Implicit Types (items : list (string * string)).

Lemma aggregate_column_eq group r column agg_function :
  aggregate_column group r (column, agg_function) =
  match Dict.get group column with
  | Some values =>
      aggregated agg_function values ≫= λ o,
        Ok (from_option (Dict.set r column) r o)
  | None => Ok r
  end.
Proof.
  unfold aggregate_column, aggregated.
  destruct (Dict.get group column) as [values|]; [|done].
  repeat case_decide; try done.
  - by destruct (py_sum values).
  - destruct (py_sum values); simpl; [|done]. by destruct (py_truediv _ _).
  - by destruct (py_max values).
Qed.

Lemma aggregate_columns_keep group items r out column :
  for_each (aggregate_column group) r items = Ok out →
  column ∉ items.*1 → Dict.get out column = Dict.get r column.
Proof.
  revert r. induction items as [|[c a] items IH]; intros r; cbn [for_each].
  - by intros [= <-].
  - rewrite fmap_cons. cbn [fst].
    intros (r1 & Hstep & Hrest)%bind_Ok [Hc Hitems]%not_elem_of_cons.
    rewrite (IH _ Hrest Hitems). rewrite aggregate_column_eq in Hstep.
    destruct (Dict.get group c); [|by injection Hstep as <-].
    apply bind_Ok in Hstep as ([value|] & _ & [= <-]); simpl; [|done].
    by rewrite get_set_ne.
Qed.

Lemma aggregate_columns_set group items r out column agg_function values :
  NoDup items.*1 → (column, agg_function) ∈ items →
  Dict.get group column = Some values →
  for_each (aggregate_column group) r items = Ok out →
  ∃ o, aggregated agg_function values = Ok o ∧
    Dict.get out column = from_option Some (Dict.get r column) o.
Proof.
  intros Hitems Hin Hvalues. revert r.
  induction items as [|[c a] items IH]; intros r; [by apply elem_of_nil in Hin|].
  rewrite fmap_cons in Hitems. cbn [fst] in Hitems.
  apply NoDup_cons in Hitems as [Hc Hitems].
  cbn [for_each]. intros (r1 & Hstep & Hrest)%bind_Ok.
  apply elem_of_cons in Hin as [[= <- <-]|Hin].
  - rewrite aggregate_column_eq, Hvalues in Hstep.
    apply bind_Ok in Hstep as (o & Ho & [= <-]). exists o. split; [done|].
    rewrite (aggregate_columns_keep _ _ _ _ _ Hrest Hc).
    destruct o; simpl; [by rewrite get_set_eq | done].
  - destruct (IH Hitems Hin _ Hrest) as (o & Ho & Hget). exists o. split; [done|].
    rewrite Hget. f_equal. rewrite aggregate_column_eq in Hstep.
    assert (column ≠ c) as Hne.
    { intros ->. apply Hc. apply list_elem_of_fmap. by exists (c, agg_function). }
    destruct (Dict.get group c); [|by injection Hstep as <-].
    apply bind_Ok in Hstep as ([value|] & _ & [= <-]); simpl; [|done].
    by rewrite get_set_ne.
Qed.


(** The loop over the groups: one output row per group, in order. *)
Lemma aggregate_groups_Ok groupby_column items
    (grouped_data : list (cell * list (string * list cell))) aggregated_data out :
  for_each (aggregate_group groupby_column items) aggregated_data grouped_data = Ok out ↔
  ∃ rows, out = aggregated_data ++ rows ∧
    Forall2 (λ (item : cell * list (string * list cell)) (r : row),
      aggregate_row groupby_column items item.1 item.2 = Ok r) grouped_data rows.
Proof.
  revert aggregated_data out.
  induction grouped_data as [|[key group] grouped_data IH]; intros aggregated_data out; simpl.
  - split.
    + intros [= <-]. exists []. by rewrite app_nil_r.
    + intros (rows & -> & ->%Forall2_nil_inv_l). by rewrite app_nil_r.
  - rewrite bind_Ok. split.
    + intros (acc & (r & Hrow & [= <-])%bind_Ok & (rows & -> & Hrest)%IH).
      exists (r :: rows). rewrite <- app_assoc. split; [done|]. by constructor.
    + intros (rows & -> & (r & rows' & Hrow & Hrest & ->)%Forall2_cons_inv_l).
      simpl in Hrow. exists (aggregated_data ++ [r]). rewrite Hrow. split; [done|].
      apply IH. exists rows'. by rewrite <- app_assoc.
Qed.
End aggregate_facts.

(** ** [dataGroupBy]: the call *)

Lemma dataGroupBy_eq dataset groupby_column aggregation_functions (before : heap) :
  dataGroupBy dataset groupby_column aggregation_functions before =
  match for_each_st (collect_row groupby_column aggregation_functions) [] dataset before with
  | (after, Ok grouped_data) =>
      (after, for_each (aggregate_group groupby_column aggregation_functions) []
                (Dict.items grouped_data))
  | (after, Raise e) => (after, Raise e)
  end.
Proof.
  unfold dataGroupBy, mbind, state_bind, lift.
  by destruct (for_each_st _ _ _ _) as [after [grouped_data|e]].
Qed.

Lemma visited_heap_start columns (before : heap) : visited_heap columns before [] before.
Proof.
  split; [done|]. intros l. rewrite decide_False by apply not_elem_of_nil.
  by destruct (before !! l).
Qed.

(** The heap after the call, and what the call returns, from the loop over
    the rows. *)
Lemma dataGroupBy_spec dataset groupby_column aggregation_functions (before : heap) :
  ∃ visited,
    visited `prefix_of` dataset ∧
    visited_heap (Dict.keys aggregation_functions) before visited
      (dataGroupBy dataset groupby_column aggregation_functions before).1 ∧
    ∀ aggregated_data,
      (dataGroupBy dataset groupby_column aggregation_functions before).2
        = Ok aggregated_data →
      visited = dataset ∧
      ∃ rows grouped_data,
        Forall2 (λ l r, before !! l = Some r) dataset rows ∧
        for_each (collect_group groupby_column (Dict.keys aggregation_functions)) [] rows
          = Ok grouped_data ∧
        Forall2 (λ (item : cell * list (string * list cell)) (r : row),
          aggregate_row groupby_column aggregation_functions item.1 item.2 = Ok r)
          grouped_data aggregated_data.
Proof.
  rewrite dataGroupBy_eq.
  pose proof (collect_loop_spec groupby_column aggregation_functions before dataset []
                before [] (visited_heap_start _ _)) as Hloop.
  destruct (for_each_st _ _ _ _) as [after [grouped_data|e]]; simpl.
  - destruct Hloop as [Hvisited (rows & Hrows & Hgroups)]. rewrite app_nil_r in Hvisited.
    exists dataset. split; [done|]. split; [done|].
    intros aggregated_data (out & -> & Hout)%aggregate_groups_Ok. split; [done|].
    by exists rows, grouped_data.
  - destruct Hloop as (seen & Hprefix & _ & Hvisited). rewrite app_nil_r in Hvisited.
    exists seen. split; [done|]. split; [done|]. done.
Qed.

(** C5, as the code has it.  [dataGroupBy] returns a new dataset and keeps
    the rows of its input and their columns, but it writes to cells: on every
    row it visits (all of them when it returns, those before the failing row
    when it raises), each cell of an aggregated column that is not a list or
    a tuple is replaced by a list of one item, the former cell.  Every other
    cell keeps its value. *)
Theorem dataGroupBy_wraps_aggregated_cells (dataset : list nat) (groupby_column : string)
    (aggregation_functions : list (string * string)) (before : heap) :
  let after := (dataGroupBy dataset groupby_column aggregation_functions before).1 in
  ∃ visited,
    visited `prefix_of` dataset ∧
    (is_Ok (dataGroupBy dataset groupby_column aggregation_functions before).2 →
     visited = dataset) ∧
    length after = length before ∧
    ∀ l r, before !! l = Some r →
      ∃ r', after !! l = Some r' ∧
        Dict.keys r' = Dict.keys r ∧
        ∀ column, Dict.get r' column =
          if decide (l ∈ visited ∧ column ∈ Dict.keys aggregation_functions)
          then wrap <$> Dict.get r column
          else Dict.get r column.
Proof.
  intros after.
  destruct (dataGroupBy_spec dataset groupby_column aggregation_functions before)
    as (visited & Hprefix & [Hlength Hafter] & Hresult).
  exists visited. split; [done|]. split; [|split; [done|]].
  - intros [aggregated_data Hok]. by destruct (Hresult _ Hok).
  - intros l r Hl. fold after in Hafter. specialize (Hafter l). rewrite Hl in Hafter.
    simpl in Hafter. destruct (decide (l ∈ visited)) as [Hin|Hin].
    + eexists. split; [done|]. split; [apply keys_wrap_columns|].
      intros column. rewrite get_wrap_columns.
      destruct (decide (column ∈ _)).
      * by rewrite decide_True.
      * by rewrite decide_False by (by intros [_ ?]).
    + exists r. split; [done|]. split; [done|]. intros column.
      by rewrite decide_False by (by intros [? _]).
Qed.

Lemma dataGroupBy_wraps_aggregated_cells_witness :
  let before : heap := [[("g", VStr "a"); ("v", int 10)]; [("g", VStr "b"); ("v", VNone)]] in
  ∃ r', (dataGroupBy [0%nat] "g" [("v", "sum")] before).1 !! 0%nat = Some r' ∧
    Dict.get r' "v" = Some (VList [int 10]) ∧ Dict.get r' "g" = Some (VStr "a").
Proof.
  intros before.
  destruct (dataGroupBy_wraps_aggregated_cells [0%nat] "g" [("v", "sum")] before)
    as (visited & _ & Hall & _ & Hrows).
  rewrite Hall in Hrows by (by eexists).
  destruct (Hrows 0%nat _ eq_refl) as (r' & Hr' & _ & Hget).
  exists r'. split; [exact Hr'|]. split; [exact (Hget "v") | exact (Hget "g")].
Defined.

(** C5, as the specification has it, fails: after a call that sums column
    'v', the cell 10 of the input row is the list [10]. *)
Lemma dataGroupBy_mutates_input :
  let before : heap := [[("g", VStr "a"); ("v", int 10)]] in
  (dataGroupBy [0%nat] "g" [("v", "sum")] before).2
    = Ok [[("g", VStr "a"); ("v", int 10)]] ∧
  (dataGroupBy [0%nat] "g" [("v", "sum")] before).1
    = [[("g", VStr "a"); ("v", VList [int 10])]] ∧
  (dataGroupBy [0%nat] "g" [("v", "sum")] before).1 ≠ before.
Proof. split; [compute_done|]. split; [compute_done|]. compute_done. Qed.

Section total_facts.
Implicit Types (r : row) (rows : list row) (group : list (string * list cell)).


Lemma rows_at_Forall2 (h : heap) dataset rows :
  Forall2 (λ l r, h !! l = Some r) dataset rows → rows = rows_at h dataset.
Proof.
  unfold rows_at. induction 1 as [|l r dataset rows Hl _ IH]; [done|].
  simpl. by rewrite (list_lookup_total_correct _ _ _ Hl), IH.
Qed.

Lemma contribution_summable value :
  summable value →
  Forall is_number (filter (λ item, item ≠ VNone) (items_of (wrap value))).
Proof.
  intros [->|[q ->]]; simpl.
  - rewrite filter_cons, decide_False by naive_solver. constructor.
  - rewrite filter_cons, decide_True by done. repeat constructor. by exists q.
Qed.

Lemma collect_values_numbers r group columns :
  (∀ column value, column ∈ columns → Dict.get r column = Some value → summable value) →
  (∀ column values, Dict.get group column = Some values → Forall is_number values) →
  ∀ column values, Dict.get (collect_values r group columns) column = Some values →
    Forall is_number values.
Proof.
  revert group. induction columns as [|c columns IH]; intros group Hr Hgroup; [done|].
  rewrite collect_values_cons. apply IH.
  - intros. eapply Hr; [by right | done].
  - destruct (Dict.get r c) as [value|] eqn:Hvalue; [|done].
    intros column values. rewrite get_accumulate. case_decide; [|by apply Hgroup].
    intros [= <-]. apply Forall_app. split.
    + destruct (Dict.get group c) eqn:Hc; [by eapply Hgroup | constructor].
    + apply contribution_summable. eapply Hr; [left | done].
Qed.

Lemma collect_groups_numbers groupby_column columns rows grouped_data :
  Forall (λ r, ∃ key, Dict.get r groupby_column = Some key ∧ hashable key ∧
    ∀ column value, column ∈ columns → Dict.get r column = Some value →
      summable value) rows →
  numeric_groups grouped_data →
  ∃ grouped_data',
    for_each (collect_group groupby_column columns) grouped_data rows = Ok grouped_data' ∧
    numeric_groups grouped_data'.
Proof.
  intros Hrows. revert grouped_data.
  induction Hrows as [|r rows (key & Hkey & Hhash & Hr) _ IH]; intros grouped_data Hnumeric.
  - by exists grouped_data.
  - cbn [for_each].
    assert (collect_group groupby_column columns grouped_data r
            = Ok (Dict.set grouped_data key
                    (collect_values r (default [] (Dict.get grouped_data key)) columns)))
      as ->.
    { apply collect_group_Ok. by exists key. }
    apply IH. intros key' group column values. rewrite get_set.
    case_decide; [|by apply Hnumeric]. intros [= <-].
    apply collect_values_numbers; [done|].
    intros column' values'.
    destruct (Dict.get grouped_data key) eqn:Hgroup; simpl; [by eapply Hnumeric | done].
Qed.

End total_facts.



Section null_column_facts.
Variables (dataset : list nat) (groupby_column : string).
Variables (aggregation_functions : list (string * string)) (before : heap).
Variables (key : cell) (column agg_function : string).
Hypothesis aggregation_functions_wf : Dict.wf aggregation_functions.
Hypothesis column_aggregated : (column, agg_function) ∈ aggregation_functions.
Hypothesis column_present : ∃ l r, l ∈ dataset ∧ before !! l = Some r ∧
  Dict.get r groupby_column = Some key ∧ is_Some (Dict.get r column).
Hypothesis column_null : ∀ l r value, l ∈ dataset → before !! l = Some r →
  Dict.get r groupby_column = Some key → Dict.get r column = Some value →
  value = VNone.

(** The accumulator of the column in the group of [key] exists and is
    empty. *)
Lemma null_column_accumulated rows grouped_data :
  Forall2 (λ l r, before !! l = Some r) dataset rows →
  for_each (collect_group groupby_column (Dict.keys aggregation_functions)) [] rows
    = Ok grouped_data →
  ∃ group, Dict.get grouped_data key = Some group ∧ Dict.get group column = Some [].
Proof using All.
  intros Hat Hgroups.
  pose proof (collect_groups_Ok _ _ _ _ aggregation_functions_wf Hgroups key column) as Hget.
  rewrite decide_True in Hget
    by (apply list_elem_of_fmap; by exists (column, agg_function)).
  assert (accumulated groupby_column key column rows = Some []) as Hacc.
  { unfold accumulated.
    assert (Forall (λ r, contribution column r = [])
              (contributors groupby_column key column rows)) as Hnull.
    { apply Forall_forall. intros r [[Hkey [value Hvalue]] Hin]%list_elem_of_filter.
      apply list_elem_of_lookup in Hin as [i Hi].
      destruct (Forall2_lookup_r _ _ _ _ _ Hat Hi) as (l & Hl & Hr).
      apply list_elem_of_lookup_2 in Hl.
      unfold contribution. rewrite Hvalue.
      rewrite (column_null l r value Hl Hr Hkey Hvalue). simpl.
      by rewrite filter_cons, decide_False by naive_solver. }
    destruct column_present as (l & r & Hl & Hr & Hkey & Hcolumn).
    apply list_elem_of_lookup in Hl as [i Hi].
    destruct (Forall2_lookup_l _ _ _ _ _ Hat Hi) as (r' & Hi' & Hr').
    assert (r ∈ contributors groupby_column key column rows) as Hin.
    { apply list_elem_of_filter. split; [done|].
      apply list_elem_of_lookup_2 with i. congruence. }
    assert (concat (contribution column <$> contributors groupby_column key column rows)
            = []) as Hconcat.
    { clear Hin. induction Hnull as [|r2 rs2 Hr2 _ IH]; [done|].
      rewrite fmap_cons. simpl. by rewrite Hr2, IH. }
    destruct (contributors _ _ _ _) as [|r1 rs]; [by apply elem_of_nil in Hin|].
    by rewrite Hconcat. }
  rewrite Hacc in Hget.
  destruct (Dict.get grouped_data key) as [group|]; [|done]. by exists group.
Qed.

(** The output row of the group of [key] takes, for the column, what
    aggregating an empty accumulator gives. *)
Lemma null_column_aggregated aggregated_data :
  (dataGroupBy dataset groupby_column aggregation_functions before).2
    = Ok aggregated_data →
  ∃ i r o,
    first_seen (column_of groupby_column (rows_at before dataset)) !! i = Some key ∧
    aggregated_data !! i = Some r ∧
    aggregated agg_function [] = Ok o ∧
    Dict.get r column = from_option Some (Dict.get [(groupby_column, key)] column) o.
Proof using All.
  intros Hok.
  destruct (dataGroupBy_spec dataset groupby_column aggregation_functions before)
    as (visited & _ & _ & Hresult).
  destruct (Hresult _ Hok) as (_ & rows & grouped_data & Hat & Hgroups & Hout).
  destruct (null_column_accumulated _ _ Hat Hgroups) as (group & Hgroup & Hempty).
  apply get_Some_lookup in Hgroup as [i Hi].
  destruct (Forall2_lookup_l _ _ _ _ _ Hout Hi) as (r & Hr & Hrow).
  destruct (aggregate_columns_set _ _ _ _ _ _ _ aggregation_functions_wf
              column_aggregated Hempty Hrow) as (o & Ho & Hget).
  exists i, r, o. split; [|done].
  destruct (collect_groups_keys _ _ _ _ Hgroups) as (_ & _ & Hkeys).
  rewrite <- (rows_at_Forall2 _ _ _ Hat), <- Hkeys. unfold Dict.keys.
  by rewrite list_lookup_fmap, Hi.
Qed.
End null_column_facts.

(** C10. When a column of the aggregation mapping is present on a row of a
    group and every cell of it in that group is the null marker, the
    accumulator of the column exists and is empty: 'max' makes the call fail,
    and when the call returns, the output row of the group holds 0 for the
    column under 'sum' and the null marker under 'mean'. *)
Theorem dataGroupBy_all_null_column (dataset : list nat) (groupby_column : string)
    (aggregation_functions : list (string * string)) (before : heap)
    (key : cell) (column agg_function : string) :
  Dict.wf aggregation_functions →
  (column, agg_function) ∈ aggregation_functions →
  (∃ l r, l ∈ dataset ∧ before !! l = Some r ∧
     Dict.get r groupby_column = Some key ∧ is_Some (Dict.get r column)) →
  (∀ l r value, l ∈ dataset → before !! l = Some r →
     Dict.get r groupby_column = Some key → Dict.get r column = Some value →
     value = VNone) →
  (agg_function = "max" →
     ∃ e, (dataGroupBy dataset groupby_column aggregation_functions before).2 = Raise e) ∧
  ∀ aggregated_data,
    (dataGroupBy dataset groupby_column aggregation_functions before).2
      = Ok aggregated_data →
    ∃ i r,
      first_seen (column_of groupby_column (rows_at before dataset)) !! i = Some key ∧
      aggregated_data !! i = Some r ∧
      (agg_function = "sum" → Dict.get r column = Some (int 0)) ∧
      (agg_function = "mean" → Dict.get r column = Some VNone).
Proof.
  intros Hwf Hin Hpresent Hnull. split.
  - intros ->.
    destruct (dataGroupBy _ _ _ _).2 as [aggregated_data|e] eqn:Hresult; [|by exists e].
    destruct (null_column_aggregated _ _ _ _ _ _ _ Hwf Hin Hpresent Hnull _ Hresult)
      as (i & r & o & Hi & Hr & Ho & Hget).
    done.
  - intros aggregated_data Hresult.
    destruct (null_column_aggregated _ _ _ _ _ _ _ Hwf Hin Hpresent Hnull _ Hresult)
      as (i & r & o & Hi & Hr & Ho & Hget).
    exists i, r. split; [done|]. split; [done|]. split.
    + intros Hagg. subst agg_function.
      assert (o = Some (VNum 0%Qc)) as -> by (by injection Ho).
      rewrite Hget. simpl. unfold int. by rewrite Z2Qc_inj_0.
    + intros Hagg. subst agg_function.
      assert (o = Some VNone) as -> by (by injection Ho).
      by rewrite Hget.
Qed.

Lemma dataGroupBy_all_null_column_witness :
  let before : heap := [[("g", VStr "a"); ("v", VNone)]; [("g", VStr "a"); ("v", VNone)]] in
  ∃ r, (dataGroupBy [0; 1]%nat "g" [("v", "sum")] before).2 = Ok [r] ∧
    Dict.get r "v" = Some (int 0).
Proof.
  intros before.
  destruct (dataGroupBy_all_null_column [0; 1]%nat "g" [("v", "sum")] before
              (VStr "a") "v" "sum") as [_ Hsum].
  - unfold Dict.wf, Dict.keys. simpl. apply NoDup_singleton.
  - by left.
  - exists 0%nat, [("g", VStr "a"); ("v", VNone)]. split; [by left|].
    split; [done|]. split; [done|]. by eexists.
  - intros l r value Hl Hr _. revert Hr.
    apply elem_of_cons in Hl as [->|Hl]; [|apply list_elem_of_singleton in Hl as ->];
      simpl; intros [= <-]; simpl; by intros [= <-].
  - destruct (Hsum [[("g", VStr "a"); ("v", VNum 0%Qc)]]) as (i & r & Hi & Hr & Hget & _);
      [by vm_compute|].
    destruct i as [|i]; [|by destruct i]. simpl in Hr. injection Hr as <-.
    eexists. split; [by vm_compute|]. by apply Hget.
Defined.

(** With 'max' in place of 'sum' that call raises: the maximum of an empty
    collection. *)
Example dataGroupBy_all_null_column_max :
  (dataGroupBy [0; 1]%nat "g" [("v", "max")]
     [[("g", VStr "a"); ("v", VNone)]; [("g", VStr "a"); ("v", VNone)]]).2
    = Raise ValueError.
Proof. reflexivity. Qed.

(** ** [columnManipulation] *)

Section manipulation_facts.
Variables (column : string) (f : cell → result cell).
Implicit Types (h : heap) (dataset : list nat) (l : nat) (r : row).

Lemma manipulate_row_eq l h :
  manipulate_row column f () l h =
  match manipulated column f (h !!! l) with
  | Some r' => (<[l := r']> h, Ok ())
  | None =>
      (h, Raise (default KeyError (manipulation_error column f (h !!! l))))
  end.
Proof.
  unfold manipulate_row, manipulated, manipulation_error, load, store, lift, mbind,
    state_bind, Dict.getitem.
  destruct (Dict.get (h !!! l) column) as [value|]; simpl; [|done].
  by destruct (f value).
Qed.

(** The loop on a dataset that lists no row twice: it rewrites the rows of a
    prefix of the dataset, all of it unless line 13 raises on the next
    row. *)
Lemma manipulate_loop_spec dataset h :
  NoDup dataset →
  ∃ seen rest,
    dataset = seen ++ rest ∧
    length (for_each_st (manipulate_row column f) () dataset h).1 = length h ∧
    (∀ l, (for_each_st (manipulate_row column f) () dataset h).1 !! l =
       if decide (l ∈ seen) then h !! l ≫= manipulated column f else h !! l) ∧
    (∀ l, l ∈ seen → is_Some (h !! l ≫= manipulated column f)) ∧
    match (for_each_st (manipulate_row column f) () dataset h).2 with
    | Ok _ => rest = []
    | Raise e =>
        ∃ l rest', rest = l :: rest' ∧ manipulated column f (h !!! l) = None ∧
          e = default KeyError (manipulation_error column f (h !!! l))
    end.
Proof.
  intros Hdataset. revert h. induction Hdataset as [|l0 dataset Hl0 _ IH]; intros h.
  - exists [], []. simpl. repeat split; try done. intros l Hl. by apply elem_of_nil in Hl.
  - cbn [for_each_st]. unfold mbind, state_bind. rewrite manipulate_row_eq.
    destruct (manipulated column f (h !!! l0)) as [r'|] eqn:Hrow.
    + assert (l0 < length h)%nat as Hvalid.
      { destruct (decide (l0 < length h)%nat); [done|].
        rewrite list_lookup_total_alt, lookup_ge_None_2 in Hrow by lia. done. }
      destruct (lookup_lt_is_Some_2 _ _ Hvalid) as [r Hr].
      rewrite (list_lookup_total_correct _ _ _ Hr) in Hrow.
      destruct (IH (<[l0 := r']> h)) as (seen & rest & -> & Hlength & Hget & Hsome & Hresult).
      exists (l0 :: seen), rest. split; [done|].
      destruct (for_each_st _ _ _ _) as [h' result]. simpl in *.
      rewrite length_insert in Hlength. split; [done|].
      assert (l0 ∉ seen) as Hfresh by (intros ?; apply Hl0, elem_of_app; by left).
      split; [|split].
      * intros l. rewrite Hget. destruct (decide (l = l0)) as [->|Hne].
        -- rewrite decide_False by done. rewrite decide_True by left.
           by rewrite list_lookup_insert_eq, Hr by done.
        -- rewrite list_lookup_insert_ne by done.
           destruct (decide (l ∈ seen)).
           ++ by rewrite decide_True by by right.
           ++ rewrite decide_False; [done|]. by intros [?|?]%elem_of_cons.
      * intros l [->|Hl]%elem_of_cons; [by rewrite Hr; simpl; rewrite Hrow|].
        specialize (Hsome l Hl). rewrite list_lookup_insert_ne in Hsome; [done|].
        by intros <-.
      * destruct result as [?|e]; [done|].
        destruct Hresult as (l & rest' & -> & Hnone & ->).
        assert (l ≠ l0) as Hne.
        { intros ->. apply Hl0, elem_of_app. right. left. }
        rewrite list_lookup_total_insert_ne in Hnone |- * by done.
        by exists l, rest'.
    + exists [], (l0 :: dataset). simpl. repeat split; try done.
      * intros l Hl. by apply elem_of_nil in Hl.
      * by exists l0, dataset.
Qed.
End manipulation_facts.

Section manipulation_theorems.
Implicit Types (h : heap) (dataset : list nat) (l : nat) (r : row).

Lemma columnManipulation_eq dataset column f h :
  columnManipulation dataset column f h =
  ((for_each_st (manipulate_row column f) () dataset h).1,
   match (for_each_st (manipulate_row column f) () dataset h).2 with
   | Ok _ => Ok dataset
   | Raise e => Raise e
   end).
Proof.
  unfold columnManipulation, mbind, state_bind, mret, state_ret.
  by destruct (for_each_st _ _ _ _) as [h' [[]|e]].
Qed.

Lemma manipulated_Some column f r value value' :
  Dict.get r column = Some value → f value = Ok value' →
  manipulated column f r = Some (Dict.set r column value').
Proof. unfold manipulated. by intros -> ->. Qed.

Lemma manipulated_compose column (f g : cell → result cell) r :
  manipulated column (λ value, f value ≫= g) r =
  manipulated column f r ≫= manipulated column g.
Proof.
  unfold manipulated. destruct (Dict.get r column) as [value|]; [|done].
  destruct (f value) as [value'|]; simpl; [|done].
  rewrite get_set_eq. destruct (g value'); [|done]. by rewrite set_set.
Qed.

Lemma first_failure_unique {A} (P : A → Prop) (seen seen' : list A) x x' rest rest' :
  seen ++ x :: rest = seen' ++ x' :: rest' →
  Forall P seen → Forall P seen' → ¬ P x → ¬ P x' →
  seen = seen' ∧ x = x' ∧ rest = rest'.
Proof.
  revert seen'. induction seen as [|y seen IH]; intros [|y' seen']; simpl;
    intros Heq Hseen Hseen' Hx Hx'; injection Heq as Hhead Htail.
  - by subst.
  - subst. by apply Forall_cons in Hseen' as [? _].
  - subst. by apply Forall_cons in Hseen as [? _].
  - apply Forall_cons in Hseen as [_ Hseen]. apply Forall_cons in Hseen' as [_ Hseen'].
    subst y'. by destruct (IH _ Htail Hseen Hseen' Hx Hx') as (-> & -> & ->).
Qed.
End manipulation_theorems.

(** X1. On a dataset that lists no row twice, where every row has the column
    and the function returns on its cell, [columnManipulation] returns the
    dataset it was given and has replaced, in place, the cell of the column
    on each of these rows by what the function returns for it; the rows keep
    their other cells and the rows outside the dataset are untouched. *)
Theorem columnManipulation_updates_in_place (dataset : list nat) (column : string)
    (f : cell → result cell) (h : heap) :
  NoDup dataset →
  (∀ l, l ∈ dataset → ∃ r value value',
     h !! l = Some r ∧ Dict.get r column = Some value ∧ f value = Ok value') →
  ∃ h', columnManipulation dataset column f h = (h', Ok dataset) ∧
    length h' = length h ∧
    (∀ l, l ∉ dataset → h' !! l = h !! l) ∧
    ∀ l r value value', l ∈ dataset → h !! l = Some r →
      Dict.get r column = Some value → f value = Ok value' →
      h' !! l = Some (Dict.set r column value').
Proof.
  intros Hdataset Hrows. rewrite columnManipulation_eq.
  destruct (manipulate_loop_spec column f dataset h Hdataset)
    as (seen & rest & -> & Hlength & Hget & _ & Hresult).
  destruct (for_each_st _ _ _ _) as [h' result]. simpl in *. exists h'.
  destruct result as [[]|e].
  - subst rest. rewrite app_nil_r in *. split; [done|]. split; [done|]. split.
    + intros l Hl. by rewrite Hget, decide_False.
    + intros l r value value' Hl Hr Hvalue Hf. rewrite Hget, decide_True, Hr by done.
      simpl. by eapply manipulated_Some.
  - exfalso. destruct Hresult as (l & rest' & -> & Hnone & _).
    destruct (Hrows l) as (r & value & value' & Hr & Hvalue & Hf).
    { apply elem_of_app. right. left. }
    rewrite (list_lookup_total_correct _ _ _ Hr) in Hnone.
    by rewrite (manipulated_Some _ _ _ _ _ Hvalue Hf) in Hnone.
Qed.

Lemma columnManipulation_updates_in_place_witness :
  let h : heap := [[("a", int 1); ("b", VStr "x")]; [("a", int 5)]; [("b", VNone)]] in
  ∃ h', columnManipulation [1; 0]%nat "a" (λ _, Ok VNone) h = (h', Ok [1; 0]%nat) ∧
    h' !! 0%nat = Some [("a", VNone); ("b", VStr "x")] ∧
    h' !! 2%nat = Some [("b", VNone)].
Proof.
  intros h.
  destruct (columnManipulation_updates_in_place [1; 0]%nat "a" (λ _, Ok VNone) h)
    as (h' & Hcall & _ & Hother & Hrows).
  - apply NoDup_cons. split; [by intros [=]%list_elem_of_singleton|]. apply NoDup_singleton.
  - intros l [-> | ->%list_elem_of_singleton]%elem_of_cons; by eexists _, _, _.
  - exists h'. split; [exact Hcall|]. split.
    + apply (Hrows 0%nat [("a", int 1); ("b", VStr "x")] (int 1) VNone);
        [by right; left | done..].
    + rewrite Hother; [done|].
      intros [[=]|[=]%list_elem_of_singleton]%elem_of_cons.
Defined.

(** X2. A manipulation function that returns each cell of the column as it
    is leaves the heap as it was, also when the dataset lists a row more than
    once. *)
Theorem columnManipulation_identity (dataset : list nat) (column : string)
    (f : cell → result cell) (h : heap) :
  (∀ l, l ∈ dataset → ∃ r value,
     h !! l = Some r ∧ Dict.get r column = Some value ∧ f value = Ok value) →
  columnManipulation dataset column f h = (h, Ok dataset).
Proof.
  intros Hrows. rewrite columnManipulation_eq.
  assert (for_each_st (manipulate_row column f) () dataset h = (h, Ok ())) as ->; [|done].
  induction dataset as [|l dataset IH]; [done|].
  cbn [for_each_st]. unfold mbind, state_bind. rewrite manipulate_row_eq.
  destruct (Hrows l) as (r & value & Hr & Hvalue & Hf); [left|].
  rewrite (list_lookup_total_correct _ _ _ Hr).
  rewrite (manipulated_Some _ _ _ _ _ Hvalue Hf), set_get_id by done.
  rewrite list_insert_id by done. apply IH. intros. apply Hrows. by right.
Qed.

Lemma columnManipulation_identity_witness :
  let h : heap := [[("a", int 1); ("b", VStr "x")]; [("a", int 5)]] in
  columnManipulation [0; 1; 0]%nat "a" Ok h = (h, Ok [0; 1; 0]%nat).
Proof.
  intros h. apply columnManipulation_identity.
  intros l [->|[-> | ->%list_elem_of_singleton]%elem_of_cons]%elem_of_cons;
    by eexists _, _.
Defined.

(** X3. No rollback: on a dataset that lists no row twice, when line 13
    raises on a row (a [KeyError] when the row lacks the column, otherwise
    what the function raises) while it went through on the rows before it,
    the call raises that exception and leaves the rows before it rewritten
    and every other row as it was. *)
Theorem columnManipulation_raises_midway (seen : list nat) (l : nat) (rest : list nat)
    (column : string) (f : cell → result cell) (h : heap) (r : row) (e : exn) :
  NoDup (seen ++ l :: rest) →
  (∀ l', l' ∈ seen → ∃ r' value value',
     h !! l' = Some r' ∧ Dict.get r' column = Some value ∧ f value = Ok value') →
  h !! l = Some r → Dict.getitem r column ≫= f = Raise e →
  ∃ h', columnManipulation (seen ++ l :: rest) column f h = (h', Raise e) ∧
    (∀ l', l' ∉ seen → h' !! l' = h !! l') ∧
    ∀ l' r' value value', l' ∈ seen → h !! l' = Some r' →
      Dict.get r' column = Some value → f value = Ok value' →
      h' !! l' = Some (Dict.set r' column value').
Proof.
  intros Hdataset Hseen Hr Hraise. rewrite columnManipulation_eq.
  destruct (manipulate_loop_spec column f _ h Hdataset)
    as (seen' & rest' & Heq & _ & Hget & Hsome & Hresult).
  assert (manipulated column f r = None) as Hnone.
  { unfold manipulated, Dict.getitem in *. destruct (Dict.get r column); [|done].
    simpl in Hraise. by rewrite Hraise. }
  destruct (for_each_st _ _ _ _) as [h' result]. simpl in *. exists h'.
  destruct result as [[]|e'].
  - exfalso. subst rest'. rewrite app_nil_r in Heq. subst seen'.
    destruct (Hsome l) as [? Hl]; [apply elem_of_app; right; left|].
    by rewrite Hr in Hl; simpl in Hl; rewrite Hnone in Hl.
  - destruct Hresult as (l1 & rest1 & -> & Hnone1 & ->).
    destruct (first_failure_unique (λ l, is_Some (h !! l ≫= manipulated column f))
                _ _ _ _ _ _ Heq) as (<- & <- & <-).
    + apply Forall_forall. intros l' Hl'.
      destruct (Hseen l' Hl') as (r' & value & value' & -> & Hvalue & Hf). simpl.
      by rewrite (manipulated_Some _ _ _ _ _ Hvalue Hf).
    + by apply Forall_forall.
    + rewrite Hr. simpl. rewrite Hnone. by intros [? ?].
    + destruct (h !! l1) as [r1|] eqn:Hl1; [|by intros [? ?]].
      rewrite (list_lookup_total_correct _ _ _ Hl1) in Hnone1. simpl.
      rewrite Hnone1. by intros [? ?].
    + rewrite (list_lookup_total_correct _ _ _ Hr).
      unfold manipulation_error. rewrite Hraise. simpl. split; [done|]. split.
      * intros l' Hl'. by rewrite Hget, decide_False.
      * intros l' r' value value' Hl' Hr' Hvalue Hf.
        rewrite Hget, decide_True, Hr' by done. simpl. by eapply manipulated_Some.
Qed.

Lemma columnManipulation_raises_midway_witness :
  let h : heap := [[("a", int 1)]; [("b", int 5)]; [("a", int 7)]] in
  ∃ h', columnManipulation [0; 1; 2]%nat "a" (λ _, Ok VNone) h = (h', Raise KeyError) ∧
    h' !! 0%nat = Some [("a", VNone)] ∧ h' !! 2%nat = Some [("a", int 7)].
Proof.
  intros h.
  destruct (columnManipulation_raises_midway [0%nat] 1%nat [2%nat] "a" (λ _, Ok VNone) h
              [("b", int 5)] KeyError) as (h' & Hcall & Hother & Hrows).
  - by apply (bool_decide_unpack _).
  - intros l ->%list_elem_of_singleton. by eexists _, _, _.
  - done.
  - done.
  - exists h'. split; [exact Hcall|]. split.
    + apply (Hrows 0%nat [("a", int 1)] (int 1) VNone); [by left | done..].
    + rewrite Hother; [done|]. by intros [=]%list_elem_of_singleton.
Defined.

(** X4. Two calls in a row are one call with the composed function: on a
    dataset that lists no row twice, when manipulating a column with [f] and
    then with [g] goes through, manipulating it once with [g] after [f]
    goes through and leaves the same heap. *)
Theorem columnManipulation_compose (dataset : list nat) (column : string)
    (f g : cell → result cell) (h h1 h2 : heap) :
  NoDup dataset →
  columnManipulation dataset column f h = (h1, Ok dataset) →
  columnManipulation dataset column g h1 = (h2, Ok dataset) →
  columnManipulation dataset column (λ value, f value ≫= g) h = (h2, Ok dataset).
Proof.
  intros Hdataset. rewrite !columnManipulation_eq.
  destruct (manipulate_loop_spec column f dataset h Hdataset)
    as (seen & rest & Heq & Hlength & Hget & Hsome & Hresult).
  destruct (for_each_st (manipulate_row column f) _ _ _) as [h1' [[]|?]]; [|done].
  simpl in *. subst rest. rewrite app_nil_r in Heq. subst seen. intros [= <-].
  destruct (manipulate_loop_spec column g dataset h1' Hdataset)
    as (seen & rest & Heq & Hlength' & Hget' & Hsome' & Hresult').
  destruct (for_each_st (manipulate_row column g) _ _ _) as [h2' [[]|?]]; [|done].
  simpl in *. subst rest. rewrite app_nil_r in Heq. subst seen. intros [= <-].
  destruct (manipulate_loop_spec column (λ value, f value ≫= g) dataset h Hdataset)
    as (seen & rest & Heq & Hlength'' & Hget'' & Hsome'' & Hresult'').
  assert (∀ l, l ∈ dataset →
    h !! l ≫= manipulated column (λ value, f value ≫= g) = h2' !! l) as Hboth.
  { intros l Hl. rewrite Hget', decide_True, Hget, decide_True by done.
    destruct (h !! l); [apply manipulated_compose | done]. }
  destruct (for_each_st _ _ _ _) as [h3 [[]|e]]; simpl in *.
  - subst rest. rewrite app_nil_r in Heq. subst seen. f_equal.
    apply list_eq. intros l. rewrite Hget''.
    destruct (decide (l ∈ dataset)) as [Hl|Hl]; [by apply Hboth|].
    by rewrite Hget', decide_False, Hget, decide_False.
  - exfalso. destruct Hresult'' as (l & rest' & -> & Hnone & _).
    assert (l ∈ dataset) as Hl by (rewrite Heq; apply elem_of_app; right; left).
    specialize (Hboth l Hl). destruct (Hsome' l Hl) as [r2 Hr2].
    rewrite Hget', decide_True in Hboth by done. rewrite Hr2 in Hboth.
    destruct (h !! l) as [r|] eqn:Hr; [|done].
    rewrite (list_lookup_total_correct _ _ _ Hr) in Hnone. simpl in Hboth. congruence.
Qed.

Lemma columnManipulation_compose_witness :
  let h : heap := [[("a", int 1)]; [("a", int 5)]] in
  columnManipulation [0; 1]%nat "a" (λ value, Ok (VList [value]) ≫= λ value, Ok (VTuple [value])) h
    = ([[("a", VTuple [VList [int 1]])]; [("a", VTuple [VList [int 5]])]], Ok [0; 1]%nat).
Proof.
  intros h.
  apply (columnManipulation_compose [0; 1]%nat "a" (λ value, Ok (VList [value]))
           (λ value, Ok (VTuple [value])) h
           [[("a", VList [int 1])]; [("a", VList [int 5])]]).
  - by apply (bool_decide_unpack _).
  - reflexivity.
  - reflexivity.
Defined.

(** ** [dataSelection] *)

Section selection_facts.
Implicit Types (r : row) (columns : list string) (dataset : list row).

Lemma set_new {K V} `{EqDecision K} (d : list (K * V)) k v :
  k ∉ Dict.keys d → Dict.set d k v = d ++ [(k, v)].
Proof.
  induction d as [|[k0 v0] d IH]; simpl; [done|].
  intros [Hne Hd]%not_elem_of_cons. rewrite decide_False by done. by rewrite IH.
Qed.

Lemma NoDup_keys_set {K V} `{EqDecision K} (d : list (K * V)) k v :
  NoDup (Dict.keys d) → NoDup (Dict.keys (Dict.set d k v)).
Proof.
  intros Hd. rewrite keys_set. case_decide; [done|].
  apply NoDup_app. split; [done|]. split; [|apply NoDup_singleton].
  intros k' Hk' ->%list_elem_of_singleton. done.
Qed.

(** Updating the empty dictionary with a dictionary gives that dictionary. *)
Lemma dict_update_empty (other : row) : NoDup (Dict.keys other) → dict_update [] other = other.
Proof.
  unfold dict_update, Dict.items. intros Hother.
  cut (∀ d : row, NoDup (Dict.keys (d ++ other)) →
         foldl (λ (d : row) '(key, value), Dict.set d key value) d other = d ++ other).
  { intros Hcut. by apply (Hcut []). }
  clear Hother. induction other as [|[k v] other IH]; intros d Hd; simpl.
  - by rewrite app_nil_r.
  - rewrite set_new.
    + rewrite IH; [by rewrite <- app_assoc|]. by rewrite <- app_assoc.
    + unfold Dict.keys in *. rewrite fmap_app in Hd. apply NoDup_app in Hd as (_ & Hd & _).
      intros Hk. apply (Hd k Hk). left.
Qed.

Lemma select_columns_snoc columns col r :
  select_columns (columns ++ [col]) r =
  match Dict.get r col with
  | Some value => Dict.set (select_columns columns r) col value
  | None => select_columns columns r
  end.
Proof. unfold select_columns. by rewrite foldl_app. Qed.

Lemma NoDup_select_columns columns r : NoDup (Dict.keys (select_columns columns r)).
Proof.
  induction columns as [|col columns IH] using rev_ind; [constructor|].
  rewrite select_columns_snoc. destruct (Dict.get r col); [by apply NoDup_keys_set | done].
Qed.

Lemma get_select_columns columns r column :
  Dict.get (select_columns columns r) column =
    if decide (column ∈ columns) then Dict.get r column else None.
Proof.
  induction columns as [|col columns IH] using rev_ind.
  - by rewrite decide_False by apply not_elem_of_nil.
  - rewrite select_columns_snoc.
    destruct (decide (column = col)) as [->|Hne].
    + rewrite (decide_True (P := col ∈ columns ++ [col]))
        by (apply elem_of_app; right; left).
      destruct (Dict.get r col) eqn:Hcol; [by rewrite get_set_eq|].
      rewrite IH. by case_decide.
    + assert (Dict.get (match Dict.get r col with
                        | Some value => Dict.set (select_columns columns r) col value
                        | None => select_columns columns r
                        end) column = Dict.get (select_columns columns r) column) as ->.
      { destruct (Dict.get r col); [by rewrite get_set_ne | done]. }
      rewrite IH. destruct (decide (column ∈ columns)).
      * by rewrite decide_True by (apply elem_of_app; by left).
      * rewrite decide_False; [done|].
        by intros [?|?%list_elem_of_singleton]%elem_of_app.
Qed.

Lemma keys_select_columns columns r :
  Dict.keys (select_columns columns r) =
    first_seen (filter (λ column, is_Some (Dict.get r column)) columns).
Proof.
  induction columns as [|col columns IH] using rev_ind; [done|].
  rewrite select_columns_snoc, filter_app, filter_cons, filter_nil.
  destruct (Dict.get r col) as [value|] eqn:Hcol.
  - rewrite decide_True by (by eexists). rewrite keys_set, first_seen_snoc, IH.
    destruct (decide (col ∈ filter _ columns)) as [Hin|Hin].
    + by rewrite decide_True by by apply elem_of_first_seen.
    + rewrite decide_False; [done|]. by rewrite elem_of_first_seen.
  - rewrite decide_False by (by intros [? ?]). by rewrite app_nil_r.
Qed.

Lemma select_columns_ext columns r r' :
  (∀ column, column ∈ columns → Dict.get r column = Dict.get r' column) →
  select_columns columns r = select_columns columns r'.
Proof.
  induction columns as [|col columns IH] using rev_ind; [done|]. intros Hext.
  rewrite !select_columns_snoc, IH.
  - by rewrite Hext by (apply elem_of_app; right; left).
  - intros. apply Hext. apply elem_of_app. by left.
Qed.

Lemma select_row_eq (columns : option (list string)) rows selected_data i r :
  select_row columns rows selected_data i r =
  if decide (kept rows i) then selected_data ++ [projected columns r] else selected_data.
Proof.
  unfold select_row, projected, kept.
  assert (∀ cols, dict_update [] (select_columns cols r) = select_columns cols r) as Hupdate.
  { intros. apply dict_update_empty, NoDup_select_columns. }
  destruct columns as [[|col cols]|], rows as [indices|]; rewrite ?Hupdate; try done;
    by case_decide.
Qed.

(** The loop keeps, in order, the projections of the rows whose index
    passes line 70. *)
Lemma select_loop_eq (columns : option (list string)) rows i dataset selected_data :
  select_loop columns rows i dataset selected_data =
  selected_data ++
    (filter (λ p, kept rows p.1)
       (imap (λ j r, ((i + j)%nat, projected columns r)) dataset)).*2.
Proof.
  revert i selected_data. induction dataset as [|r dataset IH]; intros i selected_data.
  - simpl. by rewrite app_nil_r.
  - cbn [select_loop]. rewrite IH, select_row_eq, imap_cons, filter_cons. cbn [fst].
    rewrite Nat.add_0_r.
    rewrite (imap_ext ((λ j r, ((i + j)%nat, projected columns r)) ∘ S)
               (λ j r, ((S i + j)%nat, projected columns r)) dataset)
      by (intros; simpl; f_equal; lia).
    destruct (decide (kept rows i)); [|done].
    by rewrite fmap_cons, <- app_assoc.
Qed.
End selection_facts.

Section selection_theorems.
Implicit Types (r : row) (dataset : list row) (columns : option (list string)).

Lemma filter_ext_elem {A} (P Q : A → Prop) `{∀ x, Decision (P x)} `{∀ x, Decision (Q x)}
    (l : list A) :
  (∀ x, x ∈ l → P x ↔ Q x) → filter P l = filter Q l.
Proof.
  induction l as [|x l IH]; intros Hext; [done|]. rewrite !filter_cons.
  rewrite IH by (intros; apply Hext; by right).
  destruct (decide (P x)) as [HP|HP].
  - by rewrite decide_True by (apply Hext; [left | done]).
  - rewrite decide_False; [done|]. intros HQ. apply HP, Hext; [left | done].
Qed.

Lemma filter_all {A} (P : A → Prop) `{∀ x, Decision (P x)} (l : list A) :
  Forall P l → filter P l = l.
Proof.
  induction 1 as [|x l Hx _ IH]; [done|]. by rewrite filter_cons, decide_True, IH.
Qed.

Lemma imap_pair_snd {A B} (f : A → B) (l : list A) :
  (imap (λ i x, (i, f x)) l).*2 = f <$> l.
Proof. rewrite fmap_imap, <- imap_const. by apply imap_ext. Qed.

Lemma dataSelection_eq dataset columns rows :
  dataSelection dataset columns rows =
  (filter (λ p, kept rows p.1) (imap (λ i r, (i, projected columns r)) dataset)).*2.
Proof. unfold dataSelection. by rewrite select_loop_eq. Qed.

Lemma dataSelection_None dataset columns :
  dataSelection dataset columns None = projected columns <$> dataset.
Proof.
  rewrite dataSelection_eq, filter_all; [apply imap_pair_snd|].
  by apply Forall_true.
Qed.
End selection_theorems.

(** X5. With a non-empty list of columns and no row filter, [dataSelection]
    returns one row per input row, in order; the row holds exactly the
    requested columns that the input row has, with the cells of the input
    row, in the order in which the columns were requested. *)
Theorem dataSelection_projects (dataset : list row) (columns : list string) :
  columns ≠ [] →
  length (dataSelection dataset (Some columns) None) = length dataset ∧
  ∀ i r, dataset !! i = Some r →
    ∃ selected, dataSelection dataset (Some columns) None !! i = Some selected ∧
      (∀ column, Dict.get selected column =
         if decide (column ∈ columns) then Dict.get r column else None) ∧
      Dict.keys selected =
        first_seen (filter (λ column, is_Some (Dict.get r column)) columns).
Proof.
  intros Hcolumns. rewrite dataSelection_None. split; [by rewrite length_fmap|].
  intros i r Hr. exists (select_columns columns r). split.
  - rewrite list_lookup_fmap, Hr. simpl. by destruct columns.
  - split; [intros; apply get_select_columns | apply keys_select_columns].
Qed.

Lemma dataSelection_projects_witness :
  ∃ selected,
    dataSelection [[("a", int 1); ("b", int 2); ("c", int 3)]; [("c", int 4)]]
      (Some ["c"; "z"; "a"; "c"]) None !! 0%nat = Some selected ∧
    Dict.keys selected = ["c"; "a"] ∧
    Dict.get selected "a" = Some (int 1) ∧ Dict.get selected "b" = None.
Proof.
  destruct (dataSelection_projects
    [[("a", int 1); ("b", int 2); ("c", int 3)]; [("c", int 4)]] ["c"; "z"; "a"; "c"])
    as [_ Hrows]; [done|].
  destruct (Hrows 0%nat _ eq_refl) as (selected & Hselected & Hget & Hkeys).
  exists selected. split; [exact Hselected|]. split; [exact Hkeys|].
  split; [exact (Hget "a") | exact (Hget "b")].
Defined.

(** X6. Without columns ([None] or an empty list) every row that
    [dataSelection] returns is empty, whatever the input row holds; with no
    row filter either it returns as many empty rows as the dataset has
    rows. *)
Theorem dataSelection_without_columns (dataset : list row)
    (columns : option (list string)) (rows : option (list Z)) :
  columns = None ∨ columns = Some [] →
  Forall (λ selected : row, selected = []) (dataSelection dataset columns rows) ∧
  dataSelection dataset columns None = replicate (length dataset) [].
Proof.
  intros Hcolumns.
  assert (∀ r, projected columns r = []) as Hprojected.
  { intros r. by destruct Hcolumns as [-> | ->]. }
  split.
  - rewrite dataSelection_eq. apply Forall_fmap, Forall_forall.
    intros [i selected] [_ Hin]%list_elem_of_filter.
    apply list_elem_of_lookup in Hin as [j Hj].
    rewrite list_lookup_imap in Hj. destruct (dataset !! j); [|done].
    injection Hj as _ <-. apply Hprojected.
  - rewrite dataSelection_None. clear Hcolumns.
    induction dataset as [|r dataset IH]; [done|].
    rewrite fmap_cons, Hprojected, IH. done.
Qed.

Lemma dataSelection_without_columns_witness :
  dataSelection [[("a", int 1)]; [("b", int 2)]] None None = [[]; []].
Proof.
  exact (proj2 (dataSelection_without_columns [[("a", int 1)]; [("b", int 2)]] None None
                  (or_introl eq_refl))).
Defined.

(** X7. With a row filter [dataSelection] returns, in the order of the
    dataset, the rows that it returns without the filter and whose index is
    in the filter. *)
Theorem dataSelection_filters_rows (dataset : list row) (columns : option (list string))
    (indices : list Z) :
  dataSelection dataset columns (Some indices) =
  (filter (λ p, Z.of_nat p.1 ∈ indices)
     (imap (λ i selected, (i, selected)) (dataSelection dataset columns None))).*2.
Proof.
  rewrite dataSelection_None, dataSelection_eq, imap_fmap. done.
Qed.

(** X8. Only the indices of the dataset that the row filter holds matter:
    two filters that hold the same indices of the dataset give the same
    result, whatever their order, their repetitions, and the negative or too
    large numbers in them. *)
Theorem dataSelection_rows_as_set (dataset : list row) (columns : option (list string))
    (indices indices' : list Z) :
  (∀ i, (i < length dataset)%nat → Z.of_nat i ∈ indices ↔ Z.of_nat i ∈ indices') →
  dataSelection dataset columns (Some indices) = dataSelection dataset columns (Some indices').
Proof.
  intros Hsame. rewrite !dataSelection_eq. f_equal. apply filter_ext_elem.
  intros [i selected] Hin. simpl. apply Hsame.
  apply list_elem_of_lookup in Hin as [j Hj]. rewrite list_lookup_imap in Hj.
  destruct (dataset !! j) eqn:Hr; [|done]. injection Hj as <- _.
  by eapply lookup_lt_Some.
Qed.

Lemma dataSelection_rows_as_set_witness :
  dataSelection [[("a", int 1)]; [("a", int 2)]; [("a", int 3)]] (Some ["a"])
    (Some [2; 0; 0; -1; 7])
  = dataSelection [[("a", int 1)]; [("a", int 2)]; [("a", int 3)]] (Some ["a"])
    (Some [0; 2]).
Proof.
  apply dataSelection_rows_as_set. intros i Hi. simpl in Hi.
  assert (i = 0 ∨ i = 1 ∨ i = 2)%nat as [-> | [-> | ->]] by lia.
  - split; intros _; by apply (bool_decide_unpack _).
  - split; intros Hin; exfalso; revert Hin; by apply (bool_decide_unpack _).
  - split; intros _; by apply (bool_decide_unpack _).
Defined.

(** Every row that [dataSelection] returns is the projection of a row of
    the dataset. *)
Lemma dataSelection_elements (dataset : list row) (columns : option (list string))
    (rows : option (list Z)) (selected : row) :
  selected ∈ dataSelection dataset columns rows →
  ∃ r, r ∈ dataset ∧ selected = projected columns r.
Proof.
  rewrite dataSelection_eq.
  intros ([i s] & -> & [_ Hin]%list_elem_of_filter)%list_elem_of_fmap.
  apply list_elem_of_lookup in Hin as [j Hj]. rewrite list_lookup_imap in Hj.
  destruct (dataset !! j) as [r|] eqn:Hr; [|done]. injection Hj as _ <-.
  exists r. split; [by eapply list_elem_of_lookup_2 | done].
Qed.

(** X9. Selecting the same columns again changes nothing: the rows that
    [dataSelection] returns are left as they are by a second selection of
    these columns. *)
Theorem dataSelection_idempotent (dataset : list row) (columns : list string)
    (rows : option (list Z)) :
  dataSelection (dataSelection dataset (Some columns) rows) (Some columns) None
  = dataSelection dataset (Some columns) rows.
Proof.
  rewrite dataSelection_None.
  assert (Forall (λ selected, projected (Some columns) selected = selected)
            (dataSelection dataset (Some columns) rows)) as Hagain.
  { apply Forall_forall. intros selected (r & _ & ->)%dataSelection_elements.
    destruct columns as [|col cols]; [done|]. simpl.
    apply select_columns_ext. intros column Hcolumn.
    by rewrite get_select_columns, decide_True. }
  induction Hagain as [|selected l Hselected _ IH]; [done|].
  by rewrite fmap_cons, Hselected, IH.
Qed.

(** X10. A row filter only drops rows: what [dataSelection] returns with it
    is a sublist of what it returns without it, and the same list when the
    filter holds every index of the dataset. *)
Theorem dataSelection_rows_sublist (dataset : list row) (columns : option (list string))
    (indices : list Z) :
  dataSelection dataset columns (Some indices)
    `sublist_of` dataSelection dataset columns None ∧
  ((∀ i, (i < length dataset)%nat → Z.of_nat i ∈ indices) →
   dataSelection dataset columns (Some indices) = dataSelection dataset columns None).
Proof.
  split.
  - rewrite dataSelection_None, dataSelection_eq.
    rewrite <- (imap_pair_snd (projected columns) dataset).
    apply fmap_sublist, sublist_filter.
  - intros Hall. rewrite !dataSelection_eq. f_equal. apply filter_ext_elem.
    intros [i selected] Hin. simpl. split; [done|]. intros _. apply Hall.
    apply list_elem_of_lookup in Hin as [j Hj]. rewrite list_lookup_imap in Hj.
    destruct (dataset !! j) eqn:Hr; [|done]. injection Hj as <- _.
    by eapply lookup_lt_Some.
Qed.

Lemma dataSelection_rows_sublist_witness :
  dataSelection [[("a", int 1)]; [("a", int 2)]] (Some ["a"]) (Some [1; 0; 5])
  = dataSelection [[("a", int 1)]; [("a", int 2)]] (Some ["a"]) None.
Proof.
  apply (proj2 (dataSelection_rows_sublist [[("a", int 1)]; [("a", int 2)]] (Some ["a"])
                  [1; 0; 5])).
  intros i Hi. simpl in Hi. assert (i = 0 ∨ i = 1)%nat as [-> | ->] by lia;
    by apply (bool_decide_unpack _).
Defined.

(** ** [dataCleaning]: the other strategies *)

Section cleaning_more.
Variable set_order : list cell → list cell.
Implicit Types (dataset rows : list row) (r : row) (column strategy : string).

Lemma max_by_from_greatest (key : cell → nat) best items :
  max_by_from key best items ∈ best :: items ∧
  ∀ item, item ∈ best :: items → (key item ≤ key (max_by_from key best items))%nat.
Proof.
  revert best. induction items as [|item items IH]; intros best; simpl.
  - split; [left|]. by intros item ->%list_elem_of_singleton.
  - destruct (IH (if decide (key best < key item)%nat then item else best)) as [Hin Hmax].
    split.
    + apply elem_of_cons in Hin as [->|Hin]; [|by right; right].
      case_decide; [right; left | left].
    + intros x [->|[->|Hx]%elem_of_cons]%elem_of_cons.
      * etrans; [|apply Hmax; left]. case_decide; lia.
      * etrans; [|apply Hmax; left]. case_decide; lia.
      * apply Hmax. by right.
Qed.

Lemma imputed_mode dataset column o :
  (∀ values value, value ∈ set_order values ↔ value ∈ values) →
  imputed set_order dataset "mode" column = Ok o →
  ∃ mode, o = Some mode ∧ mode_of (present_values dataset column) mode.
Proof.
  intros Hset. unfold imputed. rewrite !decide_False by done. rewrite decide_True by done.
  simpl. case_decide as Hvalues.
  - intros [= <-]. exists VNone. rewrite Hvalues. split; [done | constructor].
  - intros (mode & Hmode & [= <-])%bind_Ok. exists mode. split; [done|].
    unfold py_mode in Hmode. destruct (forallb _ _); [|done].
    destruct (set_order _) as [|first items] eqn:Hitems; [done|]. injection Hmode as <-.
    destruct (max_by_from_greatest (py_count (present_values dataset column)) first items)
      as [Hin Hmax].
    constructor.
    + apply Hset. by rewrite Hitems.
    + intros value Hvalue. apply Hmax. rewrite <- Hitems. by apply Hset.
Qed.

Lemma imputed_mode_Ok dataset column :
  (∀ values value, value ∈ set_order values ↔ value ∈ values) →
  Forall is_number (present_values dataset column) →
  is_Ok (imputed set_order dataset "mode" column).
Proof.
  intros Hset Hnumbers. unfold imputed. rewrite !decide_False by done.
  rewrite decide_True by done. simpl. case_decide as Hvalues; [by eexists|].
  unfold py_mode.
  assert (forallb hashable (present_values dataset column) = true) as ->.
  { apply forallb_forall. intros value Hvalue%list_elem_of_In.
    by destruct (proj1 (Forall_forall _ _) Hnumbers value Hvalue) as [q ->]. }
  destruct (set_order _) as [|first items] eqn:Hitems; [|by eexists].
  destruct (present_values dataset column) as [|value values]; [done|].
  assert (value ∈ set_order (value :: values)) as Hin by (apply Hset; left).
  rewrite Hitems in Hin. by apply elem_of_nil in Hin.
Qed.
End cleaning_more.

(** X11. With the strategy "mode", [dataCleaning] on a dataset with at least
    one row replaces every missing cell of a schema column by a most
    frequent non-missing value of that column, or by the null marker when
    there is none, and copies the other cells, whatever the order in which
    the set of the values is iterated; it returns whenever the columns it has
    to fill hold numbers. *)
Theorem dataCleaning_mode set_order dataset :
  (∀ values value, value ∈ set_order values ↔ value ∈ values) →
  dataset ≠ [] →
  ((∀ r column value, r ∈ dataset → column ∈ schema dataset →
      Dict.get r column = Some value → is_missing value →
      Forall is_number (present_values dataset column)) →
   is_Ok (dataCleaning set_order dataset "mode")) ∧
  ∀ cleaned, dataCleaning set_order dataset "mode" = Ok cleaned →
    length cleaned = length dataset ∧
    ∀ i r, dataset !! i = Some r →
      ∃ cleaned_row, cleaned !! i = Some cleaned_row ∧
        ∀ column value, column ∈ schema dataset → Dict.get r column = Some value →
          if is_missing value
          then ∃ mode, mode_of (present_values dataset column) mode ∧
                 Dict.get cleaned_row column = Some mode
          else Dict.get cleaned_row column = Some value.
Proof.
  intros Hset. apply dataCleaning_fills.
  - intros. by eapply imputed_mode.
  - intros. by apply imputed_mode_Ok.
Qed.

Lemma dataCleaning_mode_witness :
  let dataset : list row :=
    [[("c", VNone)]; [("c", int 3)]; [("c", int 1)]; [("c", int 3)]] in
  ∃ cleaned_row mode, dataCleaning remove_dups dataset "mode"
      = Ok (cleaned_row :: drop 1 dataset) ∧
    mode_of [int 3; int 1; int 3] mode ∧ Dict.get cleaned_row "c" = Some mode.
Proof.
  intros dataset.
  destruct (dataCleaning_mode remove_dups dataset) as [_ Hcleaned];
    [intros; apply elem_of_remove_dups | done |].
  destruct (Hcleaned [[("c", int 3)]; [("c", int 3)]; [("c", int 1)]; [("c", int 3)]])
    as [_ Hrows]; [by vm_compute|].
  destruct (Hrows 0%nat [("c", VNone)] eq_refl) as (cleaned_row & Hrow & Hcells).
  destruct (Hcells "c" VNone) as (mode & Hmode & Hget); [by left | done|].
  injection Hrow as <-. exists [("c", int 3)], mode. split; [by vm_compute|].
  split; [exact Hmode | exact Hget].
Defined.

(** X12. A strategy that is not "mean", "median" or "mode" (so "remove", and
    any name the function does not know) never fails on a dataset with at
    least one row: it returns as many rows as it was given, and each of them
    holds exactly the non-missing cells that the input row has in the schema
    columns.  No cell of the output is missing. *)
Theorem dataCleaning_omits_missing_cells set_order dataset strategy :
  dataset ≠ [] →
  strategy ≠ "mean" → strategy ≠ "median" → strategy ≠ "mode" →
  ∃ cleaned, dataCleaning set_order dataset strategy = Ok cleaned ∧
    length cleaned = length dataset ∧
    ∀ i r, dataset !! i = Some r →
      ∃ cleaned_row, cleaned !! i = Some cleaned_row ∧
        ∀ column value, Dict.get cleaned_row column = Some value ↔
          column ∈ schema dataset ∧ Dict.get r column = Some value ∧ ¬ is_missing value.
Proof.
  intros Hne Hmean Hmedian Hmode.
  assert (∀ column value, cleaned_cell set_order dataset strategy column value
            = Ok (if is_missing value then None else Some value)) as Hcell.
  { intros column value. unfold cleaned_cell, imputed.
    rewrite !decide_False by done. by destruct (is_missing value). }
  destruct (proj2 (dataCleaning_is_Ok set_order dataset strategy)) as [cleaned Hcleaned].
  { split; [done|]. intros. rewrite Hcell. by eexists. }
  exists cleaned. split; [done|].
  destruct (dataCleaning_lookup _ _ _ _ Hcleaned) as [Hlength Hrows]. split; [done|].
  intros i r Hr. destruct (Hrows i r Hr) as (cleaned_row & Hrow & Hget).
  exists cleaned_row. split; [done|]. intros column value. rewrite Hget.
  destruct (decide (column ∈ schema dataset)) as [Hcolumn|Hcolumn]; [|naive_solver].
  destruct (Dict.get r column) as [value'|]; [|naive_solver].
  rewrite Hcell. destruct (is_missing value') eqn:Hmissing.
  - split; [done|]. intros (_ & [= ->] & Hvalue). by rewrite Hmissing in Hvalue.
  - split; [intros [= ->] | intros (_ & [= ->] & _); done].
    split; [done|]. split; [done|]. intros Hvalue. by rewrite Hmissing in Hvalue.
Qed.

Lemma dataCleaning_omits_missing_cells_witness :
  ∃ cleaned, dataCleaning remove_dups
      [[("a", int 1); ("b", VStr "")]; [("a", VNone); ("b", int 2); ("z", int 3)]] "drop"
    = Ok cleaned ∧ length cleaned = 2%nat.
Proof.
  destruct (dataCleaning_omits_missing_cells remove_dups
    [[("a", int 1); ("b", VStr "")]; [("a", VNone); ("b", int 2); ("z", int 3)]] "drop")
    as (cleaned & Hcleaned & Hlength & _); [done..|].
  exists cleaned. split; [exact Hcleaned | exact Hlength].
Defined.

Section complete_facts.
Variable set_order : list cell → list cell.
Implicit Types (dataset : list row) (r : row) (strategy : string).

(** Going through the columns of a row without missing cells rebuilds the
    row. *)
Lemma clean_columns_rebuild dataset strategy r :
  NoDup (Dict.keys r) →
  (∀ column value, Dict.get r column = Some value → ¬ is_missing value) →
  for_each (clean_cell set_order dataset strategy r) [] (Dict.keys r) = Ok r.
Proof.
  intros Hr Hcomplete.
  cut (∀ todo built : row, r = built ++ todo →
         for_each (clean_cell set_order dataset strategy r) built (Dict.keys todo) = Ok r).
  { intros Hcut. by apply (Hcut r []). }
  induction todo as [|[column value] todo IH]; intros built Heq.
  - rewrite app_nil_r in Heq. by subst.
  - assert (Dict.get r column = Some value) as Hget.
    { apply get_elem_of; [done|]. rewrite Heq. apply elem_of_app. right. left. }
    assert (clean_cell set_order dataset strategy r built column
            = Ok (built ++ [(column, value)])) as Hstep.
    { unfold clean_cell. rewrite Hget. destruct (is_missing value) eqn:Hmissing.
      { exfalso. apply (Hcomplete _ _ Hget). by rewrite Hmissing. }
      rewrite set_new; [done|].
      rewrite Heq in Hr. unfold Dict.keys in *. rewrite fmap_app in Hr.
      apply NoDup_app in Hr as (_ & Hr & _). intros Hin. apply (Hr _ Hin). left. }
    unfold Dict.keys. rewrite fmap_cons. cbn [for_each fst]. rewrite Hstep.
    apply IH. by rewrite <- app_assoc.
Qed.
End complete_facts.

(** X13. A dataset without missing cells whose rows all have the columns of
    the first row, in its order, comes back as it is, whatever the strategy
    and whatever its cells hold: nothing is summed or compared. *)
Theorem dataCleaning_complete_dataset set_order dataset strategy :
  dataset ≠ [] →
  Forall (λ r : row, Dict.keys r = schema dataset ∧ NoDup (Dict.keys r) ∧
    ∀ column value, Dict.get r column = Some value → ¬ is_missing value) dataset →
  dataCleaning set_order dataset strategy = Ok dataset.
Proof.
  intros Hne Hrows. apply dataCleaning_Ok. split; [done|].
  apply Forall2_same_length_lookup_2; [done|]. intros i r r' Hr Hr'.
  assert (r' = r) as -> by congruence.
  destruct (proj1 (Forall_forall _ _) Hrows r) as (<- & Hkeys & Hcomplete);
    [by eapply list_elem_of_lookup_2|].
  by apply clean_columns_rebuild.
Qed.

Lemma dataCleaning_complete_dataset_witness :
  dataCleaning remove_dups
    [[("a", VStr "x"); ("b", int 2)]; [("a", VList []); ("b", VStr "y")]] "mean"
  = Ok [[("a", VStr "x"); ("b", int 2)]; [("a", VList []); ("b", VStr "y")]].
Proof.
  apply dataCleaning_complete_dataset; [done|].
  assert (∀ r : row, NoDup (Dict.keys r) →
            Forall (λ item : string * cell, ¬ is_missing item.2) r →
            ∀ column value, Dict.get r column = Some value → ¬ is_missing value)
    as Hcomplete.
  { intros r Hkeys Hr column value Hget.
    destruct (get_Some_lookup _ _ _ Hget) as [i Hi].
    apply (proj1 (Forall_forall _ _) Hr (column, value)).
    by eapply list_elem_of_lookup_2. }
  apply Forall_cons; split; [|apply Forall_cons; split; [|apply Forall_nil_2]];
    (split; [reflexivity|]; split; [by apply (bool_decide_unpack _)|];
     apply Hcomplete; [by apply (bool_decide_unpack _)|];
     repeat (apply Forall_cons; split; [by vm_compute|]); apply Forall_nil_2).
Defined.

(** ** What the operators raise *)

Lemma bind_Raise {A B} (f : A → result B) (m : result A) e :
  m ≫= f = Raise e ↔ m = Raise e ∨ ∃ a, m = Ok a ∧ f a = Raise e.
Proof.
  destruct m as [a|e']; simpl; split.
  - intros. right. by exists a.
  - by intros [[=]|(? & [= <-] & ?)].
  - intros [= ->]. by left.
  - by intros [[= ->]|(? & [=] & _)].
Qed.

Lemma for_each_Raise {A B} (body : B → A → result B) acc items e :
  for_each body acc items = Raise e →
  ∃ acc' item, item ∈ items ∧ body acc' item = Raise e.
Proof.
  revert acc. induction items as [|item items IH]; intros acc; simpl; [done|].
  intros [Hstep|(acc' & _ & (acc'' & item' & ? & ?)%IH)]%bind_Raise.
  - exists acc, item. split; [left | done].
  - exists acc'', item'. split; [by right | done].
Qed.






Lemma py_truediv_len {A} total (values : list A) :
  values ≠ [] → py_truediv total (py_len values) = Ok (total / py_len values)%Qc.
Proof.
  intros Hne. unfold py_truediv. rewrite decide_False; [done|]. by apply py_len_nonzero.
Qed.

(** ** What [dataCleaning] raises *)

Section cleaning_errors.
Variable set_order : list cell → list cell.
Hypothesis set_order_elements : ∀ values value, value ∈ set_order values ↔ value ∈ values.
Implicit Types (dataset rows : list row) (r : row) (column strategy : string).


End cleaning_errors.



(** ** [dataGroupBy]: the cells of the output rows *)

Section output_facts.
Implicit Types (group : list (string * list cell)) (r : row) (rows : list row).
Implicit Types (items aggregation_functions : list (string * string)).
Implicit Types (grouped_data : list (cell * list (string * list cell))).

Lemma aggregate_columns_absent group items r out column :
  Dict.get group column = None →
  for_each (aggregate_column group) r items = Ok out →
  Dict.get out column = Dict.get r column.
Proof.
  intros Hnone. revert r. induction items as [|[c a] items IH]; intros r; cbn [for_each].
  - by intros [= <-].
  - intros (r1 & Hstep & Hrest)%bind_Ok. rewrite (IH _ Hrest).
    rewrite aggregate_column_eq in Hstep.
    destruct (Dict.get group c) eqn:Hc; [|by injection Hstep as <-].
    apply bind_Ok in Hstep as ([value|] & _ & [= <-]); simpl; [|done].
    rewrite get_set_ne; [done|]. intros ->. congruence.
Qed.

(** The call returns the rows that the second loop makes of the groups that
    the first loop collects from the rows as they were before the call. *)
Lemma dataGroupBy_groups dataset groupby_column aggregation_functions (before : heap)
    aggregated_data :
  (dataGroupBy dataset groupby_column aggregation_functions before).2
    = Ok aggregated_data →
  ∃ grouped_data,
    for_each (collect_group groupby_column (Dict.keys aggregation_functions)) []
      (rows_at before dataset) = Ok grouped_data ∧
    Dict.keys grouped_data
      = first_seen (column_of groupby_column (rows_at before dataset)) ∧
    Forall2 (λ (item : cell * list (string * list cell)) (r : row),
      aggregate_row groupby_column aggregation_functions item.1 item.2 = Ok r)
      grouped_data aggregated_data.
Proof.
  intros Hok.
  destruct (dataGroupBy_spec dataset groupby_column aggregation_functions before)
    as (visited & _ & _ & Hresult).
  destruct (Hresult _ Hok) as (_ & rows & grouped_data & Hat & Hgroups & Hout).
  apply rows_at_Forall2 in Hat as <-. exists grouped_data. split; [done|].
  split; [|done]. by destruct (collect_groups_keys _ _ _ _ Hgroups) as (_ & _ & ?).
Qed.

Lemma aggregate_row_cells groupby_column aggregation_functions rows grouped_data
    key group r :
  Dict.wf aggregation_functions →
  groupby_column ∉ Dict.keys aggregation_functions →
  for_each (collect_group groupby_column (Dict.keys aggregation_functions)) [] rows
    = Ok grouped_data →
  (key, group) ∈ grouped_data →
  aggregate_row groupby_column aggregation_functions key group = Ok r →
  Dict.get r groupby_column = Some key ∧
  (∀ column, column ≠ groupby_column → column ∉ Dict.keys aggregation_functions →
     Dict.get r column = None) ∧
  ∀ column agg_function, (column, agg_function) ∈ aggregation_functions →
    match accumulated groupby_column key column rows with
    | Some values => aggregated agg_function values = Ok (Dict.get r column)
    | None => Dict.get r column = None
    end.
Proof.
  intros Hwf Hg Hgroups Hin Hrow. unfold aggregate_row in Hrow.
  assert (Dict.get grouped_data key = Some group) as Hgroup.
  { apply get_elem_of; [|done].
    destruct (collect_groups_keys _ _ _ _ Hgroups) as (_ & _ & ->).
    apply NoDup_first_seen. }
  split; [|split].
  - rewrite (aggregate_columns_keep _ _ _ _ _ Hrow Hg). simpl. by rewrite decide_True.
  - intros column Hne Hcolumn.
    rewrite (aggregate_columns_keep _ _ _ _ _ Hrow Hcolumn). simpl.
    by rewrite decide_False.
  - intros column agg_function Hitem.
    assert (column ∈ Dict.keys aggregation_functions) as Hcolumn.
    { apply list_elem_of_fmap. by exists (column, agg_function). }
    assert (column ≠ groupby_column) as Hne by (by intros ->).
    pose proof (collect_groups_Ok _ _ _ _ Hwf Hgroups key column) as Hget.
    rewrite Hgroup, decide_True in Hget by done. simpl in Hget. rewrite <- Hget.
    destruct (Dict.get group column) as [values|] eqn:Hvalues.
    + destruct (aggregate_columns_set _ _ _ _ _ _ _ Hwf Hitem Hvalues Hrow)
        as (o & -> & ->).
      simpl. rewrite decide_False by done. by destruct o.
    + rewrite (aggregate_columns_absent _ _ _ _ _ Hvalues Hrow). simpl.
      by rewrite decide_False.
Qed.

Lemma py_max_from_numbers best numbers :
  ∃ m, py_max_from (VNum best) (VNum <$> numbers) = Ok (VNum m) ∧
    greatest_of (best :: numbers) m.
Proof.
  revert best. induction numbers as [|q numbers IH]; intros best.
  - exists best. split; [done|]. split; [left|].
    intros q ->%list_elem_of_singleton. apply Qcle_refl.
  - rewrite fmap_cons. cbn [py_max_from]. unfold py_gt. cbn [py_lt mbind result_bind].
    destruct (bool_decide_reflect (best < q)%Qc) as [Hlt|Hge].
    + destruct (IH q) as (m & -> & Hin & Hmax). exists m. split; [done|]. split.
      * by right.
      * intros x [->|Hx]%elem_of_cons; [|by apply Hmax].
        apply Qclt_le_weak. eapply Qclt_le_trans; [done|]. apply Hmax. left.
    + destruct (IH best) as (m & -> & Hin & Hmax). exists m. split; [done|]. split.
      * apply elem_of_cons in Hin as [->|Hin]; [left | right; by right].
      * intros x [->|[->|Hx]%elem_of_cons]%elem_of_cons.
        -- apply Hmax. left.
        -- eapply Qcle_trans; [by apply Qcnot_lt_le|]. apply Hmax. left.
        -- apply Hmax. by right.
Qed.

Lemma aggregated_of_numbers agg_function numbers :
  match aggregated agg_function (VNum <$> numbers) with
  | Ok o =>
      (agg_function = "sum" → o = Some (VNum (sum_numbers numbers))) ∧
      (agg_function = "mean" →
         o = Some (if decide (numbers = []) then VNone
                   else VNum (arithmetic_mean numbers))) ∧
      (agg_function = "max" → ∃ m, o = Some (VNum m) ∧ greatest_of numbers m) ∧
      (agg_function ∉ ["sum"; "mean"; "max"] → o = None)
  | Raise e => agg_function = "max" ∧ numbers = [] ∧ e = ValueError
  end.
Proof.
  unfold aggregated.
  destruct (decide (agg_function = "sum")) as [->|Hsum].
  { rewrite py_sum_numbers. cbn [mbind result_bind].
    split; [done|]. split; [done|]. split; [done|]. intros []. left. }
  destruct (decide (agg_function = "mean")) as [->|Hmean].
  { rewrite length_fmap. destruct (decide (0 < length numbers)%nat) as [Hlen|Hlen].
    - assert (numbers ≠ []) as Hne by (intros ->; simpl in Hlen; lia).
      rewrite py_sum_numbers. cbn [mbind result_bind].
      rewrite py_truediv_len by (by destruct numbers).
      cbn [mbind result_bind]. rewrite decide_False by done.
      unfold arithmetic_mean. rewrite py_len_fmap.
      split; [done|]. split; [done|]. split; [done|]. intros []. right. left.
    - assert (numbers = []) as -> by (destruct numbers; [done | simpl in Hlen; lia]).
      split; [done|]. split; [done|]. split; [done|]. intros []. right. left. }
  destruct (decide (agg_function = "max")) as [->|Hmax].
  { destruct numbers as [|best numbers]; [done|]. rewrite fmap_cons. cbn [py_max].
    destruct (py_max_from_numbers best numbers) as (m & -> & Hm).
    cbn [mbind result_bind].
    split; [done|]. split; [done|]. split; [by exists m|]. intros []. right. right. left. }
  done.
Qed.
End output_facts.

(** X15. The cells of what [dataGroupBy] returns, for an aggregation mapping
    that does not name the grouping column.  The row of a key holds the key
    under the grouping column; for each column of the mapping it holds what
    the aggregation makes of the values accumulated for the key, which are
    the cells of the column in the rows of the group, in order, lists and
    tuples flattened and null markers dropped; a column that no row of the
    group has is left out; and the row has no other column. *)
Theorem dataGroupBy_aggregates (dataset : list nat) (groupby_column : string)
    (aggregation_functions : list (string * string)) (before : heap)
    (aggregated_data : list row) :
  Dict.wf aggregation_functions →
  groupby_column ∉ Dict.keys aggregation_functions →
  (dataGroupBy dataset groupby_column aggregation_functions before).2
    = Ok aggregated_data →
  let rows := rows_at before dataset in
  Forall2 (λ key (r : row),
      Dict.get r groupby_column = Some key ∧
      (∀ column, column ≠ groupby_column →
         column ∉ Dict.keys aggregation_functions → Dict.get r column = None) ∧
      ∀ column agg_function, (column, agg_function) ∈ aggregation_functions →
        match accumulated groupby_column key column rows with
        | Some values => aggregated agg_function values = Ok (Dict.get r column)
        | None => Dict.get r column = None
        end)
    (first_seen (column_of groupby_column rows)) aggregated_data.
Proof.
  intros Hwf Hg Hok rows.
  destruct (dataGroupBy_groups _ _ _ _ _ Hok) as (grouped_data & Hgroups & Hkeys & Hout).
  fold rows in Hgroups, Hkeys. rewrite <- Hkeys. unfold Dict.keys.
  apply Forall2_fmap_l, Forall2_same_length_lookup_2; [by eapply Forall2_length|].
  intros i [key group] r Hi Hr.
  pose proof (Forall2_lookup_lr _ _ _ _ _ _ Hout Hi Hr) as Hrow. simpl in Hrow.
  eapply aggregate_row_cells; try done. by eapply list_elem_of_lookup_2.
Qed.

Lemma dataGroupBy_aggregates_witness :
  let before : heap :=
    [[("g", VStr "a"); ("v", int 1)]; [("g", VStr "b")]; [("g", VStr "a"); ("v", int 2)]] in
  Forall2 (λ key (r : row),
      Dict.get r "g" = Some key ∧
      (∀ column, column ≠ "g" → column ∉ Dict.keys [("v", "sum")] →
         Dict.get r column = None) ∧
      ∀ column agg_function, (column, agg_function) ∈ [("v", "sum")] →
        match accumulated "g" key column (rows_at before [0; 1; 2]%nat) with
        | Some values => aggregated agg_function values = Ok (Dict.get r column)
        | None => Dict.get r column = None
        end)
    [VStr "a"; VStr "b"]
    [[("g", VStr "a"); ("v", int 3)]; [("g", VStr "b")]].
Proof.
  intros before.
  apply (dataGroupBy_aggregates [0; 1; 2]%nat "g" [("v", "sum")] before).
  - unfold Dict.wf, Dict.keys. simpl. apply NoDup_singleton.
  - unfold Dict.keys. simpl. by intros [=]%list_elem_of_singleton.
  - compute_done.
Defined.

(** X16. On columns that hold numbers [dataGroupBy] computes what the names
    of the aggregations say: when the accumulated values of a column for a
    key are the numbers [numbers], the row of the key holds their sum under
    'sum' (0 for none), their arithmetic mean under 'mean' (the null marker
    for none), the greatest of them under 'max', and nothing for any other
    name. *)
Theorem dataGroupBy_aggregates_numbers (dataset : list nat) (groupby_column : string)
    (aggregation_functions : list (string * string)) (before : heap)
    (aggregated_data : list row) (i : nat) (key : cell) (column agg_function : string)
    (numbers : list Qc) :
  Dict.wf aggregation_functions →
  groupby_column ∉ Dict.keys aggregation_functions →
  (column, agg_function) ∈ aggregation_functions →
  (dataGroupBy dataset groupby_column aggregation_functions before).2
    = Ok aggregated_data →
  first_seen (column_of groupby_column (rows_at before dataset)) !! i = Some key →
  accumulated groupby_column key column (rows_at before dataset)
    = Some (VNum <$> numbers) →
  ∃ r, aggregated_data !! i = Some r ∧
    (agg_function = "sum" → Dict.get r column = Some (VNum (sum_numbers numbers))) ∧
    (agg_function = "mean" →
       Dict.get r column = Some (if decide (numbers = []) then VNone
                                 else VNum (arithmetic_mean numbers))) ∧
    (agg_function = "max" →
       ∃ m, Dict.get r column = Some (VNum m) ∧ greatest_of numbers m) ∧
    (agg_function ∉ ["sum"; "mean"; "max"] → Dict.get r column = None).
Proof.
  intros Hwf Hg Hitem Hok Hkey Hacc.
  destruct (dataGroupBy_groups _ _ _ _ _ Hok) as (grouped_data & Hgroups & Hkeys & Hout).
  rewrite <- Hkeys in Hkey. unfold Dict.keys in Hkey.
  apply list_lookup_fmap_Some in Hkey as ([key' group] & -> & Hi). simpl in Hacc.
  destruct (Forall2_lookup_l _ _ _ _ _ Hout Hi) as (r & Hr & Hrow). simpl in Hrow.
  exists r. split; [done|].
  destruct (aggregate_row_cells _ _ _ _ _ _ _ Hwf Hg Hgroups
              (list_elem_of_lookup_2 _ _ _ Hi) Hrow) as (_ & _ & Hcells).
  specialize (Hcells _ _ Hitem). rewrite Hacc in Hcells.
  pose proof (aggregated_of_numbers agg_function numbers) as Hnumbers.
  rewrite Hcells in Hnumbers. done.
Qed.

Lemma dataGroupBy_aggregates_numbers_witness :
  let before : heap :=
    [[("g", VStr "a"); ("v", int 1)]; [("g", VStr "b"); ("v", int 7)];
     [("g", VStr "a"); ("v", VList [int 5; VNone; int 2])]] in
  ∃ r m, [[("g", VStr "a"); ("v", int 5)]; [("g", VStr "b"); ("v", int 7)]] !! 0%nat
           = Some r ∧
    Dict.get r "v" = Some (VNum m) ∧
    greatest_of [Qc_of_Z 1; Qc_of_Z 5; Qc_of_Z 2] m.
Proof.
  intros before.
  destruct (dataGroupBy_aggregates_numbers [0; 1; 2]%nat "g" [("v", "max")] before
              [[("g", VStr "a"); ("v", int 5)]; [("g", VStr "b"); ("v", int 7)]]
              0%nat (VStr "a") "v" "max" [Qc_of_Z 1; Qc_of_Z 5; Qc_of_Z 2])
    as (r & Hr & _ & _ & Hmax & _).
  - unfold Dict.wf, Dict.keys. simpl. apply NoDup_singleton.
  - unfold Dict.keys. simpl. by intros [=]%list_elem_of_singleton.
  - by left.
  - compute_done.
  - reflexivity.
  - reflexivity.
  - destruct (Hmax eq_refl) as (m & Hm & Hgreatest). by exists r, m.
Defined.

(** ** [dataGroupBy]: calling it again *)

Section again_facts.
Implicit Types (h before after : heap) (dataset visited : list nat) (r : row).
Implicit Types (aggregation_functions : list (string * string)).

(** Two heaps in which the same rows have been visited are the same. *)
Lemma visited_heap_inj columns before visited visited' h h' :
  (∀ l, l ∈ visited ↔ l ∈ visited') →
  visited_heap columns before visited h → visited_heap columns before visited' h' →
  h = h'.
Proof.
  intros Hequiv [_ Hh] [_ Hh']. apply list_eq. intros l. rewrite Hh, Hh'.
  destruct (decide (l ∈ visited)) as [Hin|Hin].
  - by rewrite decide_True by by apply Hequiv.
  - by rewrite decide_False by by rewrite <- Hequiv.
Qed.

Lemma visited_heap_nil before visited h : visited_heap [] before visited h → h = before.
Proof.
  intros [_ Hh]. apply list_eq. intros l. rewrite Hh.
  destruct (before !! l); [|done]. simpl. by case_decide.
Qed.

(** The call, from the heap and the result of the loop over the rows. *)
Lemma dataGroupBy_returns dataset groupby_column aggregation_functions before after
    aggregated_data :
  dataGroupBy dataset groupby_column aggregation_functions before
    = (after, Ok aggregated_data) →
  visited_heap (Dict.keys aggregation_functions) before dataset after ∧
  ∃ rows grouped_data,
    Forall2 (λ l r, before !! l = Some r) dataset rows ∧
    for_each (collect_group groupby_column (Dict.keys aggregation_functions)) [] rows
      = Ok grouped_data ∧
    for_each (aggregate_group groupby_column aggregation_functions) []
      (Dict.items grouped_data) = Ok aggregated_data.
Proof.
  rewrite dataGroupBy_eq.
  pose proof (collect_loop_spec groupby_column aggregation_functions before dataset []
                before [] (visited_heap_start _ _)) as Hloop.
  destruct (for_each_st _ _ _ _) as [h [grouped_data|e]]; [|done].
  destruct Hloop as [Hvisited (rows & Hrows & Hgroups)]. rewrite app_nil_r in Hvisited.
  intros [= <- Hout]. split; [done|]. by exists rows, grouped_data.
Qed.
End again_facts.

(** X17. [dataGroupBy] can be called again on the rows it has written to:
    when the grouping column is not aggregated, a second call with the same
    arguments returns the same rows as the first and writes nothing. *)
Theorem dataGroupBy_twice (dataset : list nat) (groupby_column : string)
    (aggregation_functions : list (string * string)) (before after : heap)
    (aggregated_data : list row) :
  groupby_column ∉ Dict.keys aggregation_functions →
  dataGroupBy dataset groupby_column aggregation_functions before
    = (after, Ok aggregated_data) →
  dataGroupBy dataset groupby_column aggregation_functions after
    = (after, Ok aggregated_data).
Proof.
  intros Hg (Hvisited & rows & grouped_data & Hrows & Hgroups & Hout)%dataGroupBy_returns.
  rewrite dataGroupBy_eq.
  pose proof (collect_loop_spec groupby_column aggregation_functions before dataset
                dataset after [] Hvisited) as Hloop.
  pose proof (collect_loop_total groupby_column aggregation_functions before dataset
                rows dataset after [] grouped_data Hvisited Hg Hrows Hgroups) as Htotal.
  destruct (for_each_st _ _ _ _) as [h result]. simpl in Htotal. subst result.
  destruct Hloop as [Hvisited' _]. rewrite Hout. f_equal.
  eapply visited_heap_inj; [|done..]. intros l. rewrite elem_of_app. tauto.
Qed.

Lemma dataGroupBy_twice_witness :
  let after : heap :=
    [[("g", VStr "a"); ("v", VList [int 10])]; [("g", VStr "a"); ("v", VList [int 20])]] in
  dataGroupBy [0; 1]%nat "g" [("v", "sum")] after
    = (after, Ok [[("g", VStr "a"); ("v", int 30)]]).
Proof.
  intros after.
  apply (dataGroupBy_twice [0; 1]%nat "g" [("v", "sum")]
           [[("g", VStr "a"); ("v", int 10)]; [("g", VStr "a"); ("v", int 20)]]).
  - unfold Dict.keys. simpl. by intros [=]%list_elem_of_singleton.
  - compute_done.
Defined.

(** X18. When the grouping column is itself aggregated, a call that returns
    cannot be repeated: it has put the grouping cell of every row in a list,
    so a second call with the same arguments raises [TypeError] on the first
    row, whose grouping cell, unless it was a tuple before, is unhashable
    now.  The second call writes nothing. *)
Theorem dataGroupBy_twice_aggregated_key (dataset : list nat) (groupby_column : string)
    (aggregation_functions : list (string * string)) (before after : heap)
    (aggregated_data : list row) (l : nat) (rest : list nat) (r : row) (key : cell) :
  groupby_column ∈ Dict.keys aggregation_functions →
  dataset = l :: rest → before !! l = Some r →
  Dict.get r groupby_column = Some key → is_list_or_tuple key = false →
  dataGroupBy dataset groupby_column aggregation_functions before
    = (after, Ok aggregated_data) →
  dataGroupBy dataset groupby_column aggregation_functions after
    = (after, Raise TypeError).
Proof.
  intros Hg -> Hl Hkey Hseq (Hvisited & _)%dataGroupBy_returns.
  destruct Hvisited as [_ Hafter]. specialize (Hafter l).
  rewrite Hl, decide_True in Hafter by left. simpl in Hafter.
  rewrite dataGroupBy_eq. cbn [for_each_st].
  unfold mbind at 1, state_bind at 1.
  unfold collect_row, load, lift, mbind, state_bind.
  rewrite (list_lookup_total_correct _ _ _ Hafter).
  unfold Dict.getitem. rewrite get_wrap_columns, decide_True, Hkey by done. simpl.
  unfold wrap. by rewrite Hseq.
Qed.

Lemma dataGroupBy_twice_aggregated_key_witness :
  let after : heap := [[("g", VList [int 1])]] in
  dataGroupBy [0%nat] "g" [("g", "sum")] after = (after, Raise TypeError).
Proof.
  intros after.
  apply (dataGroupBy_twice_aggregated_key [0%nat] "g" [("g", "sum")] [[("g", int 1)]]
           after [[("g", int 1)]] 0%nat [] [("g", int 1)] (int 1)).
  - left.
  - reflexivity.
  - reflexivity.
  - reflexivity.
  - reflexivity.
  - compute_done.
Defined.

(** X19. With an empty aggregation mapping [dataGroupBy] lists the distinct
    values of the grouping column: when every row has a hashable grouping
    cell, the call writes nothing and returns one row for each distinct
    value, in the order of first occurrence, that holds this value under the
    grouping column and nothing else. *)
Theorem dataGroupBy_no_aggregations (dataset : list nat) (groupby_column : string)
    (before : heap) :
  Forall (λ l, ∃ r key, before !! l = Some r ∧
    Dict.get r groupby_column = Some key ∧ hashable key) dataset →
  dataGroupBy dataset groupby_column [] before =
    (before, Ok ((λ key, [(groupby_column, key)]) <$>
                   first_seen (column_of groupby_column (rows_at before dataset)))).
Proof.
  intros Hdataset.
  assert (∃ rows, Forall2 (λ l r, before !! l = Some r) dataset rows ∧
    Forall (λ r : row, ∃ key, Dict.get r groupby_column = Some key ∧ hashable key ∧
      ∀ column value, column ∈ Dict.keys ([] : list (string * string)) →
        Dict.get r column = Some value → summable value) rows) as (rows & Hat & Hrows).
  { clear -Hdataset.
    induction Hdataset as [|l dataset (r & key & Hl & Hkey & Hhash) _ (rows & ? & ?)].
    - by exists [].
    - exists (r :: rows). split; constructor; try done.
      exists key. split; [done|]. split; [done|]. by intros ?? ?%elem_of_nil. }
  destruct (collect_groups_numbers _ _ _ [] Hrows) as (grouped_data & Hgroups & _).
  { by intros ???? [=]. }
  pose proof (collect_loop_total groupby_column [] before dataset
    rows [] before [] grouped_data (visited_heap_start _ _) (not_elem_of_nil _)
    Hat Hgroups) as Htotal.
  pose proof (collect_loop_spec groupby_column [] before dataset []
                before [] (visited_heap_start _ _)) as Hloop.
  rewrite dataGroupBy_eq. destruct (for_each_st _ _ _ _) as [after result].
  simpl in Htotal. subst result. destruct Hloop as [Hvisited _].
  apply visited_heap_nil in Hvisited as ->. f_equal.
  apply aggregate_groups_Ok. eexists. split; [done|].
  rewrite (rows_at_Forall2 _ _ _ Hat) in Hgroups.
  destruct (collect_groups_keys _ _ _ _ Hgroups) as (_ & _ & <-).
  unfold Dict.keys. apply Forall2_fmap_r, Forall2_fmap_r, Forall_Forall2_diag.
  apply Forall_true. by intros [key group].
Qed.

Lemma dataGroupBy_no_aggregations_witness :
  let before : heap := [[("g", VStr "a")]; [("g", VStr "b")]; [("g", VStr "a")]] in
  dataGroupBy [0; 1; 2]%nat "g" [] before
    = (before, Ok [[("g", VStr "a")]; [("g", VStr "b")]]).
Proof.
  intros before. apply (dataGroupBy_no_aggregations [0; 1; 2]%nat "g" before).
  repeat constructor; by eexists _, _.
Defined.

(** ** What [dataGroupBy] raises *)

Section groupby_errors.
Variables (groupby_column : string) (aggregation_functions : list (string * string)).
Implicit Types (h before : heap) (dataset visited : list nat) (r : row).
Implicit Types (grouped_data : list (cell * list (string * list cell))).





End groupby_errors.



(** ** [dataSampling]: fractions between 0 and 1 *)

Section sampling_more.
Context {A : Type}.
Implicit Types (s : list (list A)) (items sampled_data : list A).

Lemma py_int_upper_bound z x : (x ≤ Qc_of_Z z)%Qc → py_int x ≤ z.
Proof.
  unfold py_int, Qcle, Qle. simpl. intros Hx.
  apply Z.quot_le_upper_bound; lia.
Qed.

Lemma sample_size_nonneg items fraction : (0 ≤ fraction)%Qc → 0 ≤ sample_size items fraction.
Proof.
  intros Hfraction. apply py_int_lower_bound.
  rewrite Z2Qc_inj_0, Qcmult_comm, <- (Qcmult_0_l (Qc_of_Z (Z.of_nat (length items)))).
  apply Qcmult_le_compat_r; [done|]. rewrite <- Z2Qc_inj_0.
  apply (proj1 (Z2Qc_inj_le _ _)). lia.
Qed.

Lemma sample_size_le_one items fraction :
  (fraction ≤ 1)%Qc → sample_size items fraction ≤ Z.of_nat (length items).
Proof.
  intros Hfraction. apply py_int_upper_bound.
  rewrite Qcmult_comm.
  apply Qcle_trans with (1 * Qc_of_Z (Z.of_nat (length items)))%Qc;
    [|rewrite Qcmult_1_l; apply Qcle_refl].
  apply Qcmult_le_compat_r; [done|]. rewrite <- Z2Qc_inj_0.
  apply (proj1 (Z2Qc_inj_le _ _)). lia.
Qed.
End sampling_more.

(** X21. For a fraction between 0 and 1 [dataSampling] returns: the sample
    has [int(total_size * fraction)] items, which is at most the size of the
    dataset, and it is drawn without replacement, that is, no item occurs
    more often in the sample than in the dataset. *)
Theorem dataSampling_proper_fraction {A} (now : Z) (dataset : nat) (fraction : Qc)
    (s : list (list A)) (items : list A) :
  s !! dataset = Some items → (0 ≤ fraction)%Qc → (fraction ≤ 1)%Qc →
  ∃ sample, (dataSampling now dataset fraction s).2 = Ok sample ∧
    Z.of_nat (length sample) = sample_size items fraction ∧
    (length sample ≤ length items)%nat ∧
    sample ⊆+ items.
Proof.
  intros Hitems Hlower Hupper.
  pose proof (sample_size_nonneg items fraction Hlower).
  pose proof (sample_size_le_one items fraction Hupper).
  destruct (dataSampling_spec now dataset fraction s items Hitems)
    as (taken & rest & Hperm & _ & Hresult).
  rewrite decide_True in Hresult by done. destruct Hresult as [Hlength ->].
  exists taken. split; [done|]. split; [lia|]. split; [lia|].
  rewrite <- Hperm. by apply submseteq_inserts_r.
Qed.

Lemma dataSampling_proper_fraction_witness :
  ∃ sample, (dataSampling 1700000000 0%nat (Q2Qc (1 # 2)) [[10; 20; 30]%nat]).2
              = Ok sample ∧
    Z.of_nat (length sample) = 1 ∧ sample ⊆+ [10; 20; 30]%nat.
Proof.
  destruct (dataSampling_proper_fraction 1700000000 0%nat (Q2Qc (1 # 2))
              [[10; 20; 30]%nat] [10; 20; 30]%nat eq_refl)
    as (sample & Hsample & Hlength & _ & Hsub).
  - done.
  - done.
  - exists sample. split; [exact Hsample|]. split; [exact Hlength | exact Hsub].
Defined.



(** X23. The clock decides the sample: when at least one row is sampled, the
    first row of the sample is the row of the dataset at index
    [now % total_size]. *)
Theorem dataSampling_first_pick {A} (now : Z) (dataset : nat) (fraction : Qc)
    (s : list (list A)) (items : list A) :
  s !! dataset = Some items →
  1 ≤ sample_size items fraction ≤ Z.of_nat (length items) →
  ∃ first sample,
    (dataSampling now dataset fraction s).2 = Ok (first :: sample) ∧
    items !! Z.to_nat (now `mod` Z.of_nat (length items)) = Some first.
Proof.
  intros Hitems [Hlower Hupper].
  unfold dataSampling, list_copy, list_len, mbind, state_bind.
  rewrite (list_lookup_total_correct _ _ _ Hitems).
  assert ((s ++ [items]) !! length s = Some items) as Hcopy.
  { by rewrite lookup_app_r, Nat.sub_diag by lia. }
  rewrite (list_lookup_total_correct _ _ _ Hcopy).
  fold (sample_size items fraction).
  destruct (Z.to_nat (sample_size items fraction)) as [|n] eqn:Hn; [lia|].
  cbn [sample_loop]. unfold mbind, state_bind, list_len, lift, py_mod, list_pop.
  rewrite (list_lookup_total_correct _ _ _ Hcopy).
  assert (0 < Z.of_nat (length items)) as Hlen by lia.
  rewrite decide_False by lia.
  pose proof (Z.mod_pos_bound now _ Hlen) as Hbound.
  destruct (lookup_lt_is_Some_2 items (Z.to_nat (now `mod` Z.of_nat (length items))))
    as [first Hfirst]; [lia|].
  rewrite Hfirst.
  match goal with |- context [sample_loop n _ _ _ ?s'] =>
    destruct (sample_loop_spec n (now + 1) (length s) ([] ++ [first]) s'
                (delete (Z.to_nat (now `mod` Z.of_nat (length items))) items))
      as (taken & rest & _ & _ & Hresult)
  end.
  { apply list_lookup_insert_eq. by eapply lookup_lt_Some. }
  rewrite length_delete in Hresult by eauto.
  rewrite decide_True in Hresult by lia. destruct Hresult as [_ ->].
  by exists first, taken.
Qed.

Lemma dataSampling_first_pick_witness :
  ∃ sample, (dataSampling 1700000000 0%nat (Q2Qc (1 # 2)) [[10; 20; 30]%nat]).2
              = Ok (30%nat :: sample).
Proof.
  destruct (dataSampling_first_pick 1700000000 0%nat (Q2Qc (1 # 2))
              [[10; 20; 30]%nat] [10; 20; 30]%nat eq_refl)
    as (first & sample & Hsample & Hfirst).
  - by vm_compute.
  - vm_compute in Hfirst. injection Hfirst as <-. by exists sample.
Defined.

(** ** [dataPivoting]: when it returns, and pivoting again *)

Section pivoting_more.
Variables (pivot_column value_column : string).
Implicit Types (dataset rows : list row) (r : row) (pivoted_data : list (cell * cell)).

Lemma pivot_row_Raise pivoted_data r e :
  pivot_row pivot_column value_column pivoted_data r = Raise e →
  (e = KeyError ∧ (Dict.get r pivot_column = None ∨ Dict.get r value_column = None)) ∨
  (e = TypeError ∧ ∃ key, Dict.get r pivot_column = Some key ∧ hashable key = false).
Proof.
  unfold pivot_row, Dict.getitem.
  destruct (Dict.get r pivot_column) as [key|]; simpl.
  - destruct (hashable key) eqn:Hkey.
    + destruct (Dict.get r value_column); simpl; [done|].
      intros [= <-]. left. split; [done | by right].
    + intros [= <-]. right. split; [done|]. by exists key.
  - intros [= <-]. left. split; [done | by left].
Qed.

Lemma pivot_loop_rows rows pivoted_data out :
  for_each (pivot_row pivot_column value_column) pivoted_data rows = Ok out →
  Forall (λ r : row, ∃ key value, Dict.get r pivot_column = Some key ∧ hashable key ∧
    Dict.get r value_column = Some value) rows.
Proof.
  revert pivoted_data. induction rows as [|r rows IH]; intros pivoted_data; simpl;
    [constructor|].
  intros (pivoted_data1 & Hrow & Hrest)%bind_Ok. constructor; [|by eapply IH].
  apply pivot_row_Ok in Hrow as (key & value & ? & ? & ? & _). by exists key, value.
Qed.

(** Pivoting the rows made of a dictionary gives the dictionary back. *)
Lemma pivot_loop_rebuild (items pivoted_data : list (cell * cell)) :
  NoDup (Dict.keys (pivoted_data ++ items)) →
  Forall (λ key, hashable key) (Dict.keys items) →
  for_each (pivot_row "pivot_column" "value_column") pivoted_data
    ((λ '(key, value), [("pivot_column", key); ("value_column", value)]) <$> items)
  = Ok (pivoted_data ++ items).
Proof.
  revert pivoted_data. induction items as [|[key value] items IH];
    intros pivoted_data Hkeys Hhashable.
  - by rewrite app_nil_r.
  - rewrite fmap_cons. cbn [for_each].
    unfold Dict.keys in Hhashable. rewrite fmap_cons in Hhashable.
    apply Forall_cons in Hhashable as [Hkey Hhashable].
    rewrite (proj2 (pivot_row_Ok _ _ _ _ _))
      by (by exists key, value).
    cbn [mbind result_bind].
    assert (key ∉ Dict.keys pivoted_data) as Hnew.
    { unfold Dict.keys in *. rewrite fmap_app, fmap_cons in Hkeys.
      apply NoDup_app in Hkeys as (_ & Hdisjoint & _). intros Hin.
      apply (Hdisjoint _ Hin). left. }
    rewrite set_new by done. rewrite IH.
    + by rewrite <- app_assoc.
    + by rewrite <- app_assoc.
    + done.
Qed.
End pivoting_more.

(** X24. [dataPivoting] returns exactly when every row has a hashable pivot
    cell and a value cell.  Otherwise it raises a [KeyError] for a row that
    lacks one of the two columns, or a [TypeError] for a row whose pivot cell
    is unhashable. *)
Theorem dataPivoting_returns_iff (dataset : list row) (pivot_column value_column : string) :
  (is_Ok (dataPivoting dataset pivot_column value_column) ↔
   Forall (λ r : row, ∃ key value, Dict.get r pivot_column = Some key ∧ hashable key ∧
     Dict.get r value_column = Some value) dataset) ∧
  ∀ e, dataPivoting dataset pivot_column value_column = Raise e →
    (e = KeyError ∧ ∃ r, r ∈ dataset ∧
       (Dict.get r pivot_column = None ∨ Dict.get r value_column = None)) ∨
    (e = TypeError ∧ ∃ r key, r ∈ dataset ∧
       Dict.get r pivot_column = Some key ∧ hashable key = false).
Proof.
  unfold dataPivoting. split; [split|].
  - intros [pivoted (pivoted_data & Hloop & _)%bind_Ok]. by eapply pivot_loop_rows.
  - intros Hrows. destruct (pivot_loop_is_Ok _ _ _ [] Hrows) as [pivoted_data ->].
    by eexists.
  - intros e [Hloop|(? & _ & [=])]%bind_Raise.
    apply for_each_Raise in Hloop as (pivoted_data & r & Hin & Hrow).
    apply pivot_row_Raise in Hrow as [[-> Hmissing] | [-> (key & Hkey & Hhash)]].
    + left. split; [done|]. by exists r.
    + right. split; [done|]. by exists r, key.
Qed.

(** X25. Pivoting the result of [dataPivoting] on its two columns,
    "pivot_column" and "value_column", returns it unchanged. *)
Theorem dataPivoting_again (dataset : list row) (pivot_column value_column : string)
    (pivoted : list row) :
  dataPivoting dataset pivot_column value_column = Ok pivoted →
  dataPivoting pivoted "pivot_column" "value_column" = Ok pivoted.
Proof.
  unfold dataPivoting at 1. intros (pivoted_data & Hloop & [= <-])%bind_Ok.
  destruct (pivot_loop_Ok _ _ _ _ Hloop) as (_ & Hkeys & _).
  apply pivot_loop_rows in Hloop as Hrows.
  unfold dataPivoting, Dict.items.
  rewrite (pivot_loop_rebuild pivoted_data []).
  - done.
  - simpl. rewrite Hkeys. apply NoDup_first_seen.
  - rewrite Hkeys. apply Forall_forall. intros key Hkey. apply (proj1 (elem_of_first_seen _ _)) in Hkey.
    unfold column_of in Hkey. apply list_elem_of_omap in Hkey as (r & Hr & Hget).
    apply (proj1 (Forall_forall _ _) Hrows) in Hr as (key' & value & Hkey' & Hhash & _).
    congruence.
Qed.

Lemma dataPivoting_again_witness :
  dataPivoting
    [[("pivot_column", VStr "x"); ("value_column", int 3)];
     [("pivot_column", VStr "y"); ("value_column", int 2)]] "pivot_column" "value_column"
  = Ok [[("pivot_column", VStr "x"); ("value_column", int 3)];
        [("pivot_column", VStr "y"); ("value_column", int 2)]].
Proof.
  apply (dataPivoting_again
    [[("p", VStr "x"); ("v", int 1)]; [("p", VStr "y"); ("v", int 2)];
     [("p", VStr "x"); ("v", int 3)]] "p" "v").
  reflexivity.
Defined.
